(** * Restart-on-panic supervision (package reroutine)

    A shallow embedding of the package: fault containment ([HandleCrash],
    [logPanic]), the tracked-group collaborator used by the tests
    ([mockTomb]) and the three supervision loops (the stop-channel
    [BlockingGo], the context [BlockingGo] and [BlockingGoTomb]) as an
    executable interleaving semantics of their goroutines. *)

From Stdlib Require Import ZArith Lia.
From Stdlib Require Import Strings.String Strings.Byte.
From stdpp Require Import base option list.

Local Open Scope string_scope.
Local Open Scope list_scope.

(** ** Go values *)

(** A value of type [interface{}]: what [panic] is given and [recover]
    returns.  [VNil] is the nil interface, which [recover] also returns when
    the goroutine is not panicking. *)
Inductive value :=
  | VNil
  | VString (s : string)
  | VRuntimeError (msg : string)
  | VOther (tag : nat).

Definition is_nil (r : value) : bool :=
  match r with VNil => true | _ => false end.

(** A value of type [error]; the two sentinels are the ones the tomb
    compares by identity. *)
Inductive error :=
  | ErrNil
  | ErrStillAlive
  | ErrDying
  | ErrOther (tag : nat).

Definition err_is_nil (e : error) : bool :=
  match e with ErrNil => true | _ => false end.

(** ** Fault containment *)

Module Crash.

(** The functions that can sit in the process-wide registry. *)
Inductive handler :=
  | LogPanic
  | Registered (id : nat).

(** A [func(interface{})] value handed to [HandleCrash]: a registered
    function, or the closure of the supervision loops that pushes a token
    on their [start] channel. *)
Inductive func :=
  | Global (h : handler)
  | RearmStart.

(** What [HandleCrash] does, in order: handler calls and the final
    re-raise. *)
Inductive action :=
  | Call (fn : func) (r : value)
  | Repanic (r : value).

(** Standard logging output: the lines written so far. *)
Definition output := list string.

Definition log_Print (str : string) (out : output) : output := out ++ [str].

(** The package-level variables. *)
Record Config := {
  ReallyCrash : bool;
  PrintError : string -> output -> output;
  PanicHandlers : list handler;
}.

Definition default_config : Config :=
  {| ReallyCrash := false;
     PrintError := log_Print;
     PanicHandlers := [LogPanic] |}.

(** [for _, fn := range fns { fn(r) }] *)
Fixpoint range_call (fns : list func) (r : value) : list action :=
  match fns with
  | [] => []
  | fn :: rest => Call fn r :: range_call rest r
  end.

(** [HandleCrash(additionalHandlers...)], as the deferred call sees it:
    [recovered] is the result of [recover()]. *)
Definition HandleCrash (cfg : Config) (additionalHandlers : list func)
    (recovered : value) : list action :=
  if is_nil recovered then []
  else
    range_call (map Global (PanicHandlers cfg)) recovered
    ++ range_call additionalHandlers recovered
    ++ (if ReallyCrash cfg then [Repanic recovered] else []).

(** The calls of a script, without the re-raise. *)
Fixpoint calls (s : list action) : list (func * value) :=
  match s with
  | [] => []
  | Call fn r :: rest => (fn, r) :: calls rest
  | Repanic _ :: rest => calls rest
  end.

(** The values a script re-raises. *)
Fixpoint reraised (s : list action) : list value :=
  match s with
  | [] => []
  | Call _ _ :: rest => reraised rest
  | Repanic r :: rest => r :: reraised rest
  end.

(** The Go runtime and [fmt], as far as [logPanic] looks at them: the
    formatted stack of the calling goroutine, the formatted stacks of the
    other goroutines, and the renderings of a value under [%#v] and
    [%v]. *)
Record golib := {
  current_stack : list byte;
  other_stacks : list byte;
  fmt_sharp_v : value -> string;
  fmt_v : value -> string;
}.

(** [runtime.Stack(buf, all)]: writes the trace of the calling goroutine,
    followed by those of the other goroutines when [all] is set, into
    [buf], as much as fits, and returns the number of bytes written. *)
Definition runtime_Stack (lib : golib) (buf : list byte) (all : bool)
    : list byte * nat :=
  let tr := if all then current_stack lib ++ other_stacks lib
            else current_stack lib in
  let n := Nat.min (length buf) (length tr) in
  (take n tr ++ drop n buf, n).

(** [const size = 64 << 10] *)
Definition size : nat := Nat.shiftl 64 10.

Definition newline : string := String (Ascii.ascii_of_nat 10) EmptyString.

(** [fmt.Sprintf("Observed a panic: %s\n%s", r, stacktrace)] *)
Definition Sprintf_s (r : string) (stacktrace : list byte) : string :=
  ("Observed a panic: " ++ r ++ newline
   ++ string_of_list_byte stacktrace)%string.

(** [fmt.Sprintf("Observed a panic: %#v (%v)\n%s", r, r, stacktrace)] *)
Definition Sprintf_v (lib : golib) (r : value) (stacktrace : list byte)
    : string :=
  ("Observed a panic: " ++ fmt_sharp_v lib r ++ " (" ++ fmt_v lib r ++ ")"
   ++ newline ++ string_of_list_byte stacktrace)%string.

(** The stack trace [logPanic] captures:
    [stacktrace[:runtime.Stack(stacktrace, false)]]. *)
Definition captured_stack (lib : golib) : list byte :=
  let stacktrace := repeat x00 size in
  let '(buf, n) := runtime_Stack lib stacktrace false in
  take n buf.

Definition logPanic (cfg : Config) (lib : golib) (r : value)
    (out : output) : output :=
  let stacktrace := captured_stack lib in
  match r with
  | VString s => PrintError cfg (Sprintf_s s stacktrace) out
  | _ => PrintError cfg (Sprintf_v lib r stacktrace) out
  end.

End Crash.

(** ** The tracked-group collaborator of the tests *)

Module Tomb.

(** Go's [int] on a 64-bit target: two's complement wrap-around. *)
Definition int_wrap (z : Z) : Z := ((z + 2 ^ 63) mod 2 ^ 64 - 2 ^ 63)%Z.

(** [mockTomb] after [init]: the two channels are represented by whether
    they have been closed. *)
Record mockTomb := {
  alive : Z;
  dying : bool;
  dead : bool;
  reason : error;
}.

(** The zero tomb, once [init] has run. *)
Definition fresh : mockTomb :=
  {| alive := 0; dying := false; dead := false; reason := ErrStillAlive |}.

(** [t.kill(why)]; [None] is a panic. *)
Definition kill (why : error) (t : mockTomb) : option mockTomb :=
  match why with
  | ErrStillAlive => None
  | ErrDying =>
      match reason t with
      | ErrStillAlive => None
      | _ => Some t
      end
  | _ =>
      match reason t with
      | ErrStillAlive =>
          Some {| alive := alive t; dying := true; dead := dead t;
                  reason := why |}
      | ErrNil =>
          Some {| alive := alive t; dying := dying t; dead := dead t;
                  reason := why |}
      | _ => Some t
      end
  end.

(** [t.Kill(why)] *)
Definition Kill (why : error) (t : mockTomb) : option mockTomb := kill why t.

(** [t.Go(f)] up to the [go t.run(f)]: panics on a dead tomb, otherwise
    counts the new goroutine. *)
Definition Go (t : mockTomb) : option mockTomb :=
  if dead t then None
  else Some {| alive := int_wrap (alive t + 1); dying := dying t;
               dead := dead t; reason := reason t |}.

(** [t.run(f)] from the moment [f] has returned [err]. *)
Definition run_exit (err : error) (t : mockTomb) : option mockTomb :=
  let t1 := {| alive := int_wrap (alive t - 1); dying := dying t;
               dead := dead t; reason := reason t |} in
  if (alive t1 =? 0)%Z || negb (err_is_nil err) then
    match kill err t1 with
    | None => None
    | Some t2 =>
        if (alive t1 =? 0)%Z then
          if dead t2 then None
          else Some {| alive := alive t2; dying := dying t2; dead := true;
                       reason := reason t2 |}
        else Some t2
    end
  else Some t1.

End Tomb.

(** ** The supervision loops *)

Module Loop.
Import Crash.

(** The three loops share their shape; [start] is an unbuffered channel.
<<
    start := make(chan struct{})
    go func() { start <- struct{}{} }()           // the seeding goroutine

    // BlockingGo(stopChan, do)                   VSelect
    for {
      select {
      case <-stopChan: return                     // LStop
      case _, ok := <-start:                      // LRecv / LClosed
        if !ok { return }
        go func() {                               // LSpawn
          defer HandleCrash(func(_ interface{}) { start <- struct{}{} })
          do()
          close(start)
        }()
      }
    }

    // BlockingGo(ctx, do)                        VContext
    for _ = range start {                         // LRecv / LClosed
      if err := ctx.Err(); err != nil { return }  // LCheck
      go func() { ... as above ... }()            // LSpawn
    }

    // BlockingGoTomb(ts, do)                     VTomb
    for _ = range start {                         // LRecv / LClosed
      select { case <-ts.Dying(): return; default: }   // LCheck
      ts.Go(func() error {                        // LSpawn
        defer HandleCrash(func(_ interface{}) { start <- struct{}{} })
        err := do()
        close(start)
        return err
      })
    }
>>
    A state holds the program counter of the loop's goroutine, those of the
    attempts' goroutines, and the channels; a move is one step of one
    goroutine, a send on [start] happening together with the loop's
    receive. *)

(** Which loop: [BlockingGo] over a stop channel (the [select] loop),
    [BlockingGo] over a context (the [range] loop with [ctx.Err()]), or
    [BlockingGoTomb]. *)
Inductive variant := VSelect | VContext | VTomb.

(** What one call of the unit of work does. *)
Inductive outcome :=
  | Returns (err : error)
  | Panics (r : value)
  | Blocks.

(** The unit of work: its outcome at each invocation, counted from 0. *)
Definition work := nat -> outcome.

(** Where the loop's goroutine is. *)
Inductive dpc :=
  | DRecv     (* waiting at the [select] / at [range start] *)
  | DCheck    (* token received; about to poll the cancellation source *)
  | DSpawn    (* about to launch the attempt *)
  | DDone.    (* returned *)

(** Where an attempt's goroutine is. *)
Inductive apc :=
  | ARun                                      (* in [do] *)
  | AClose (err : error)                      (* [do] returned; before [close(start)] *)
  | ADefer (script : list action) (ret : error) (* in the deferred [HandleCrash] *)
  | ADone (ret : error).                      (* the closure has returned [ret] *)

Definition event : Type := nat * func * value.

Record state := {
  stop : bool;             (* the stop channel is closed / the context is done *)
  start_closed : bool;     (* [close(start)] has happened *)
  seeder : bool;           (* the seeding goroutine still offers its token *)
  driver : dpc;
  attempts : list apc;     (* the goroutines launched so far, in order *)
  tomb : Tomb.mockTomb;
  crashed : bool;          (* an unrecovered panic has ended the process *)
  trace : list event;      (* handler calls made so far *)
}.

(** The state on entry to the loop: [start] is made and the seeding
    goroutine is offering its token. *)
Definition init (t0 : Tomb.mockTomb) : state :=
  {| stop := false; start_closed := false; seeder := true; driver := DRecv;
     attempts := []; tomb := t0; crashed := false; trace := [] |}.

Definition set_stop (b : bool) (s : state) : state :=
  {| stop := b; start_closed := start_closed s; seeder := seeder s;
     driver := driver s; attempts := attempts s; tomb := tomb s;
     crashed := crashed s; trace := trace s |}.
Definition set_start_closed (b : bool) (s : state) : state :=
  {| stop := stop s; start_closed := b; seeder := seeder s;
     driver := driver s; attempts := attempts s; tomb := tomb s;
     crashed := crashed s; trace := trace s |}.
Definition set_seeder (b : bool) (s : state) : state :=
  {| stop := stop s; start_closed := start_closed s; seeder := b;
     driver := driver s; attempts := attempts s; tomb := tomb s;
     crashed := crashed s; trace := trace s |}.
Definition set_driver (d : dpc) (s : state) : state :=
  {| stop := stop s; start_closed := start_closed s; seeder := seeder s;
     driver := d; attempts := attempts s; tomb := tomb s;
     crashed := crashed s; trace := trace s |}.
Definition set_attempts (l : list apc) (s : state) : state :=
  {| stop := stop s; start_closed := start_closed s; seeder := seeder s;
     driver := driver s; attempts := l; tomb := tomb s;
     crashed := crashed s; trace := trace s |}.
Definition set_tomb (t : Tomb.mockTomb) (s : state) : state :=
  {| stop := stop s; start_closed := start_closed s; seeder := seeder s;
     driver := driver s; attempts := attempts s; tomb := t;
     crashed := crashed s; trace := trace s |}.
Definition crash (s : state) : state :=
  {| stop := stop s; start_closed := start_closed s; seeder := seeder s;
     driver := driver s; attempts := attempts s; tomb := tomb s;
     crashed := true; trace := trace s |}.
Definition record (e : event) (s : state) : state :=
  {| stop := stop s; start_closed := start_closed s; seeder := seeder s;
     driver := driver s; attempts := attempts s; tomb := tomb s;
     crashed := crashed s; trace := trace s ++ [e] |}.
Definition set_attempt (i : nat) (a : apc) (s : state) : state :=
  set_attempts (<[i := a]> (attempts s)) s.

(** Is the cancellation source signaled? *)
Definition signaled (v : variant) (s : state) : bool :=
  match v with
  | VTomb => Tomb.dying (tomb s)
  | _ => stop s
  end.

(** Where the loop goes with a received token: the [select] loop launches
    at once, the [range] loops poll the cancellation source first. *)
Definition after_recv (v : variant) : dpc :=
  match v with
  | VSelect => DSpawn
  | _ => DCheck
  end.

(** The value a runtime panic of a channel operation carries. *)
Definition close_of_closed : value :=
  VRuntimeError "close of closed channel".

Inductive sender := Seeder | Handler (i : nat).

(** The moves of the system: one per goroutine and kind of progress. *)
Inductive label :=
  | LCancel (why : error)  (* the environment signals cancellation *)
  | LStop                  (* [select] takes [case <-stopChan] *)
  | LRecv (from : sender)  (* the loop receives the token [from] offers *)
  | LClosed                (* the loop sees [start] closed *)
  | LCheck                 (* the loop polls the cancellation source *)
  | LSpawn                 (* the loop launches an attempt *)
  | LAttempt (i : nat).    (* attempt [i] makes its next move *)

(** The closure's return: in the tomb variant [run] accounts for it. *)
Definition retire (v : variant) (i : nat) (ret : error) (s : state)
    : state :=
  match v with
  | VTomb =>
      match Tomb.run_exit ret (tomb s) with
      | Some t => set_tomb t (set_attempt i (ADone ret) s)
      | None => crash (set_attempt i (ADone ret) s)
      end
  | _ => set_attempt i (ADone ret) s
  end.

(** One move of attempt [i]. *)
Definition attempt_step (v : variant) (cfg : Config) (do : work) (i : nat)
    (s : state) : option state :=
  match attempts s !! i with
  | Some ARun =>
      match do i with
      | Returns err => Some (set_attempt i (AClose err) s)
      | Panics r =>
          Some (set_attempt i (ADefer (HandleCrash cfg [RearmStart] r) ErrNil) s)
      | Blocks => None
      end
  | Some (AClose err) =>
      if start_closed s then
        Some (set_attempt i
                (ADefer (HandleCrash cfg [RearmStart] close_of_closed) ErrNil) s)
      else
        Some (set_start_closed true
                (set_attempt i (ADefer (HandleCrash cfg [RearmStart] VNil) err) s))
  | Some (ADefer [] ret) => Some (retire v i ret s)
  | Some (ADefer (Call RearmStart _ :: _) _) =>
      (* [start <- struct{}{}]: blocked until the loop receives; a send on
         the closed channel panics inside the deferred call *)
      if start_closed s then Some (crash s) else None
  | Some (ADefer (Call (Global h) r :: rest) ret) =>
      Some (record (i, Global h, r) (set_attempt i (ADefer rest ret) s))
  | Some (ADefer (Repanic _ :: _) _) => Some (crash s)
  | Some (ADone _) => None
  | None => None
  end.

(** The loop receives a token. *)
Definition recv_step (v : variant) (from : sender) (s : state)
    : option state :=
  match driver s with
  | DRecv =>
      if start_closed s then None
      else
        match from with
        | Seeder =>
            if seeder s
            then Some (set_driver (after_recv v) (set_seeder false s))
            else None
        | Handler i =>
            match attempts s !! i with
            | Some (ADefer (Call RearmStart r :: rest) ret) =>
                Some (record (i, RearmStart, r)
                        (set_driver (after_recv v)
                           (set_attempt i (ADefer rest ret) s)))
            | _ => None
            end
        end
  | _ => None
  end.

(** The launch: [go func() {...}()], or [ts.Go(func() error {...})]. *)
Definition spawn_step (v : variant) (s : state) : option state :=
  match driver s with
  | DSpawn =>
      match v with
      | VTomb =>
          match Tomb.Go (tomb s) with
          | Some t =>
              Some (set_driver DRecv
                      (set_tomb t (set_attempts (attempts s ++ [ARun]) s)))
          | None => Some (crash s)
          end
      | _ => Some (set_driver DRecv (set_attempts (attempts s ++ [ARun]) s))
      end
  | _ => None
  end.

(** The environment signals cancellation. *)
Definition cancel_step (v : variant) (why : error) (s : state)
    : option state :=
  match v with
  | VTomb =>
      match Tomb.Kill why (tomb s) with
      | Some t => Some (set_tomb t s)
      | None => None
      end
  | _ => Some (set_stop true s)
  end.

(** One move of the system; [None] when the move is not enabled. *)
Definition exec (v : variant) (cfg : Config) (do : work) (l : label)
    (s : state) : option state :=
  if crashed s then None
  else
    match l with
    | LCancel why => cancel_step v why s
    | LStop =>
        match v, driver s with
        | VSelect, DRecv => if stop s then Some (set_driver DDone s) else None
        | _, _ => None
        end
    | LRecv from => recv_step v from s
    | LClosed =>
        match driver s with
        | DRecv => if start_closed s then Some (set_driver DDone s) else None
        | _ => None
        end
    | LCheck =>
        match driver s with
        | DCheck =>
            Some (set_driver (if signaled v s then DDone else DSpawn) s)
        | _ => None
        end
    | LSpawn => spawn_step v s
    | LAttempt i => attempt_step v cfg do i s
    end.

(** A schedule, run from a state. *)
Fixpoint run (v : variant) (cfg : Config) (do : work) (ls : list label)
    (s : state) : option state :=
  match ls with
  | [] => Some s
  | l :: rest =>
      match exec v cfg do l s with
      | Some s' => run v cfg do rest s'
      | None => None
      end
  end.

Definition is_cancel (l : label) : bool :=
  match l with LCancel _ => true | _ => false end.

(** The states the loop can be in. *)
Definition reachable (v : variant) (cfg : Config) (do : work)
    (t0 : Tomb.mockTomb) (s : state) : Prop :=
  exists ls, run v cfg do ls (init t0) = Some s.

(** The calls of the unit of work that have come to their end. *)
Definition finished (a : apc) : bool :=
  match a with ARun => false | _ => true end.

Definition calls_finished (s : state) : nat :=
  length (List.filter finished (attempts s)).

(** *** Measures of a state

    The token that licenses the next launch is in exactly one place: with
    the seeding goroutine, with the loop (between its receive and its
    launch), or with an attempt that has not yet pushed it back. *)

Definition is_rearm (a : action) : bool :=
  match a with Call RearmStart _ => true | _ => false end.

Definition rearms (s : list action) : nat :=
  length (List.filter is_rearm s).

Definition held (a : apc) : nat :=
  match a with
  | ARun | AClose _ => 1
  | ADefer s _ => rearms s
  | ADone _ => 0
  end.

Definition driver_holds (d : dpc) : nat :=
  match d with DCheck | DSpawn => 1 | _ => 0 end.

Definition tokens (s : state) : nat :=
  (if seeder s then 1 else 0) + driver_holds (driver s)
  + sum_list_with held (attempts s).

(** The moves of one attempt, seen from its own program counter;
    [closed] is whether [start] is closed when it moves. *)
Inductive local (cfg : Config) (do : work) (i : nat) (closed : bool)
    : apc -> apc -> Prop :=
  | local_return e :
      do i = Returns e -> local cfg do i closed ARun (AClose e)
  | local_panic r :
      do i = Panics r ->
      local cfg do i closed ARun
        (ADefer (HandleCrash cfg [RearmStart] r) ErrNil)
  | local_close e :
      closed = false -> local cfg do i closed (AClose e) (ADefer [] e)
  | local_close_closed e :
      closed = true ->
      local cfg do i closed (AClose e)
        (ADefer (HandleCrash cfg [RearmStart] close_of_closed) ErrNil)
  | local_call c rest ret :
      local cfg do i closed (ADefer (c :: rest) ret) (ADefer rest ret)
  | local_retire ret :
      local cfg do i closed (ADefer [] ret) (ADone ret).

(** Where the system is once attempt [k], whose call returns [e], has
    been launched: it is the last attempt, and [start] is closed exactly
    when it has got past its [close(start)]. *)
Definition returning (k : nat) (e : error) (s : state) : Prop :=
  length (attempts s) = S k
  /\ ((attempts s !! k = Some ARun \/ attempts s !! k = Some (AClose e))
      /\ start_closed s = false
      \/ (attempts s !! k = Some (ADefer [] e)
          \/ attempts s !! k = Some (ADone e))
         /\ start_closed s = true).

(** The handler calls attempt [i] has made, in order. *)
Fixpoint events_of (i : nat) (tr : list event) : list (func * value) :=
  match tr with
  | [] => []
  | (j, fn, r) :: rest =>
      if Nat.eqb j i then (fn, r) :: events_of i rest else events_of i rest
  end.

(** The calls made so far by an attempt whose call of the work panicked
    with [r], followed by those its deferred [HandleCrash] still has to
    make, are the calls of [HandleCrash] on [r]. *)
Definition calls_accounted (cfg : Config) (r : value) (i : nat)
    (s : state) : Prop :=
  match attempts s !! i with
  | None | Some ARun => events_of i (trace s) = []
  | Some (AClose _) => True
  | Some (ADefer sc _) =>
      events_of i (trace s) ++ calls sc
      = calls (HandleCrash cfg [RearmStart] r)
  | Some (ADone _) =>
      events_of i (trace s) = calls (HandleCrash cfg [RearmStart] r)
  end.

(** A unit of work whose every call panics with a non-nil value. *)
Definition faulting (do : work) : Prop :=
  forall k, exists r, do k = Panics r /\ r <> VNil.

(** The loop at work: not cancelled, [start] open, the process alive, the
    call not returned, and the token somewhere. *)
Definition in_service (s : state) : Prop :=
  stop s = false /\ start_closed s = false /\ crashed s = false
  /\ driver s <> DDone /\ tokens s = 1.

(** The moves of a schedule that are the program's own. *)
Definition moves (ls : list label) : nat :=
  length (List.filter (fun l => negb (is_cancel l)) ls).

(** How far the loop is within one round, and how far an attempt is in its
    life, [h] being the length of the registry. *)
Definition stage (d : dpc) : nat :=
  match d with DRecv => 0 | DCheck => 1 | DSpawn => 2 | DDone => 3 end.

Definition progress (h : nat) (a : apc) : nat :=
  match a with
  | ARun => 0
  | AClose _ => 1
  | ADefer s _ => 2 + (h + 2 - length s)
  | ADone _ => h + 5
  end.

Definition potential (cfg : Config) (s : state) : nat :=
  3 * length (attempts s) + stage (driver s)
  + sum_list_with (progress (length (PanicHandlers cfg))) (attempts s)
  + (if crashed s then 1 else 0).

End Loop.

(** ** The entry points *)

Module Entry.
Import Loop.

(** The exported functions.  [Go] and [BlockingGo] over a stop channel are
    the ones at [VSelect], those over a context the ones at [VContext];
    [GoTomb] and [BlockingGoTomb] are the ones at [VTomb]. *)
Inductive entry :=
  | FGo (v : variant)
  | FBlockingGo (v : variant).

(** What a goroutine has left to run.  The arguments of a call are the
    cancellation source and the work; the work is the same all along, and
    of the source the tomb is what the loop starts from. *)
Inductive stmt :=
  | SCall (f : entry) (ts : Tomb.mockTomb)   (* [f(source, do)] *)
  | SGo (f : entry) (ts : Tomb.mockTomb)     (* [go f(source, do)] *)
  | SLoop                                   (* in the loop of [BlockingGo] *)
  | SRest.                                  (* the caller's code after the call *)

Definition goroutine := list stmt.

(** A program that supervises one unit of work: its goroutines, and the
    state of the loop once [BlockingGo] has been entered. *)
Record world := {
  gs : list goroutine;
  sup : option (variant * state);
}.

(** [func Go(stopChan, do) { go BlockingGo(stopChan, do) }], and the same
    for [GoTomb] with [BlockingGoTomb]. *)
Definition Go (v : variant) (ts : Tomb.mockTomb) : list stmt :=
  [SGo (FBlockingGo v) ts].

(** [BlockingGo] / [BlockingGoTomb]: on entry [start] is made and seeded
    (the loop's state is [init]); the rest of the body is the loop. *)
Definition BlockingGo : list stmt := [SLoop].

(** A goroutine whose next statement is a call of an entry point, followed
    by the rest of its code. *)
Definition program (f : entry) (ts : Tomb.mockTomb) : world :=
  {| gs := [[SCall f ts; SRest]]; sup := None |}.

(** A move of the program: goroutine [g] runs the statement it is at, or
    the loop and its attempts make a move. *)
Inductive wlabel :=
  | WOwn (g : nat)
  | WLoop (l : label).

(** An unrecovered panic, in whichever goroutine, ends the process. *)
Definition process_ended (w : world) : bool :=
  match sup w with
  | Some (_, s) => crashed s
  | None => false
  end.

(** A call puts the body of the function in front of the caller's code; a
    [go] statement starts a goroutine that makes the call and lets the
    caller go on; a goroutine in the loop goes on when the loop has
    returned. *)
Definition own_step (g : nat) (w : world) : option world :=
  match gs w !! g with
  | Some (SCall (FGo v) ts :: k) =>
      Some {| gs := <[g := Go v ts ++ k]> (gs w); sup := sup w |}
  | Some (SCall (FBlockingGo v) ts :: k) =>
      match sup w with
      | None =>
          Some {| gs := <[g := BlockingGo ++ k]> (gs w);
                  sup := Some (v, init ts) |}
      | Some _ => None
      end
  | Some (SGo f ts :: k) =>
      Some {| gs := <[g := k]> (gs w) ++ [[SCall f ts]]; sup := sup w |}
  | Some (SLoop :: k) =>
      match sup w with
      | Some (_, s) =>
          match driver s with
          | DDone => Some {| gs := <[g := k]> (gs w); sup := sup w |}
          | _ => None
          end
      | None => None
      end
  | _ => None
  end.

Definition wexec (cfg : Crash.Config) (do : work) (wl : wlabel) (w : world)
    : option world :=
  if process_ended w then None
  else
    match wl with
    | WOwn g => own_step g w
    | WLoop l =>
        match sup w with
        | Some (v, s) =>
            match exec v cfg do l s with
            | Some s' => Some {| gs := gs w; sup := Some (v, s') |}
            | None => None
            end
        | None => None
        end
    end.

Fixpoint wrun (cfg : Crash.Config) (do : work) (wls : list wlabel)
    (w : world) : option world :=
  match wls with
  | [] => Some w
  | wl :: rest =>
      match wexec cfg do wl w with
      | Some w' => wrun cfg do rest w'
      | None => None
      end
  end.

(** The moves of the loop in a schedule of the program. *)
Fixpoint loop_moves (wls : list wlabel) : list label :=
  match wls with
  | [] => []
  | WLoop l :: rest => l :: loop_moves rest
  | WOwn _ :: rest => loop_moves rest
  end.

(** Has the first goroutine got past its call? *)
Definition returned (w : world) : bool :=
  match gs w !! 0 with
  | Some (SRest :: _) => true
  | _ => false
  end.

(** The worlds a call of [Go] goes through, with the loop's moves so far:
    the call, the [go] statement, the new goroutine before and in the loop,
    and the new goroutine at its end. *)
Definition via_Go (cfg : Crash.Config) (do : work) (v : variant)
    (ts : Tomb.mockTomb) (ls : list label) (w : world) : Prop :=
  (ls = []
   /\ (w = program (FGo v) ts
       \/ w = {| gs := [[SGo (FBlockingGo v) ts; SRest]]; sup := None |}
       \/ w = {| gs := [[SRest]; [SCall (FBlockingGo v) ts]];
                 sup := None |}))
  \/ exists s,
       run v cfg do ls (init ts) = Some s
       /\ (w = {| gs := [[SRest]; [SLoop]]; sup := Some (v, s) |}
           \/ (driver s = DDone
               /\ w = {| gs := [[SRest]; []]; sup := Some (v, s) |})).

(** The worlds a call of [BlockingGo] goes through. *)
Definition via_BlockingGo (cfg : Crash.Config) (do : work) (v : variant)
    (ts : Tomb.mockTomb) (ls : list label) (w : world) : Prop :=
  (ls = [] /\ w = program (FBlockingGo v) ts)
  \/ exists s,
       run v cfg do ls (init ts) = Some s
       /\ (w = {| gs := [[SLoop; SRest]]; sup := Some (v, s) |}
           \/ (driver s = DDone
               /\ w = {| gs := [[SRest]]; sup := Some (v, s) |})).

End Entry.

(** ** Sample inputs *)

Module Samples.
Import Crash Loop.

(** The unit of work of the tests: it panics at every call. *)
Definition always_panics : work := fun _ => Panics (VString "panicked").

(** A unit of work that calls [panic(nil)]. *)
Definition panics_nil : work := fun _ => Panics VNil.

(** Panics until its call number [k], which returns. *)
Definition succeeds_at (k : nat) : work :=
  fun i => if Nat.ltb i k then Panics (VString "panicked") else Returns ErrNil.


(** Never comes back from its call. *)
Definition hangs : work := fun _ => Blocks.

(** The tomb of the tests, tracking the goroutine that waits for its
    death. *)
Definition busy_tomb : Tomb.mockTomb :=
  {| Tomb.alive := 1; Tomb.dying := false; Tomb.dead := false;
     Tomb.reason := ErrStillAlive |}.

(** A process with two goroutines: the stack of the calling one is
    rendered [a], that of the other one [b]. *)
Definition two_goroutines : golib :=
  {| current_stack := [x61]; other_stacks := [x62];
     fmt_sharp_v := fun _ => ""; fmt_v := fun _ => "" |}.

(** The re-raise flag switched on. *)
Definition crashing_config : Config :=
  {| ReallyCrash := true; PrintError := log_Print;
     PanicHandlers := [LogPanic; Registered 7] |}.

End Samples.

(** ** The collaborator's read side and its life *)

Module TombView.
Import Tomb.

(** [t.Err()] *)
Definition Err (t : mockTomb) : error := reason t.

(** [t.Alive()]: [t.Err() == ErrStillAlive] *)
Definition Alive (t : mockTomb) : bool :=
  match Err t with ErrStillAlive => true | _ => false end.

(** [t.Wait()]: blocked ([None]) until [dead] is closed, then the reason. *)
Definition Wait (t : mockTomb) : option error :=
  if dead t then Some (reason t) else None.

(** The calls that change a tomb: [Kill(why)], [Go(f)] up to its [go], and
    the return of a tracked function with [err]. *)
Inductive op :=
  | OpKill (why : error)
  | OpGo
  | OpReturn (err : error).

Definition perform (o : op) (t : mockTomb) : option mockTomb :=
  match o with
  | OpKill why => Kill why t
  | OpGo => Go t
  | OpReturn err => run_exit err t
  end.

(** A sequence of such calls; [None] as soon as one panics. *)
Fixpoint perform_all (os : list op) (t : mockTomb) : option mockTomb :=
  match os with
  | [] => Some t
  | o :: rest =>
      match perform o t with
      | Some t' => perform_all rest t'
      | None => None
      end
  end.

(** What [init] sets up and every call keeps: the tomb is dying exactly
    when it has a reason, and it is only dead when dying. *)
Definition consistent (t : mockTomb) : Prop :=
  (dying t = false <-> reason t = ErrStillAlive)
  /\ (dead t = true -> dying t = true).

(** Is [z] a value of Go's [int]? *)
Definition is_int (z : Z) : Prop := (- 2 ^ 63 <= z < 2 ^ 63)%Z.

End TombView.

(** ** Further measures of the loops *)

Module LoopView.
Import Crash Loop.

(** Is the attempt inside its call of the work, or between that call and
    its [close(start)]? *)
Definition in_call (a : apc) : Prop :=
  a = ARun \/ exists e, a = AClose e.

(** Does the attempt's closure still have to return? *)
Definition live (a : apc) : nat :=
  match a with ADone _ => 0 | _ => 1 end.

(** An error a tracked function may return without making [kill] panic:
    nil or an error of its own. *)
Definition plain (e : error) : bool :=
  match e with ErrNil | ErrOther _ => true | _ => false end.

(** The work never returns one of the tomb's sentinels. *)
Definition plain_work (do : work) : Prop :=
  forall k e, do k = Returns e -> plain e = true.

(** The work never panics at call [k]. *)
Definition quiet_at (do : work) (k : nat) : Prop :=
  forall r, do k <> Panics r.

End LoopView.

(** * Properties *)

(** ** Lists and scripts *)

Section ListFacts.
Context {A : Type}.
Implicit Types (f : A -> nat) (l : list A).

Lemma sum_list_with_insert f l i a a' :
  l !! i = Some a ->
  sum_list_with f (<[i := a']> l) + f a = sum_list_with f l + f a'.
Proof.
  revert i. induction l as [|x l IH]; intros [|i] Hi; simplify_eq/=.
  - lia.
  - specialize (IH i Hi). lia.
Qed.

Lemma sum_list_with_lookup f l i a :
  l !! i = Some a -> f a <= sum_list_with f l.
Proof.
  intros Hi. apply sum_list_with_in. by eapply list_elem_of_lookup_2.
Qed.

Lemma sum_list_with_pos f l :
  0 < sum_list_with f l -> exists i a, l !! i = Some a /\ 0 < f a.
Proof.
  induction l as [|x l IH]; simpl; [lia|]. intros H.
  destruct (decide (0 < f x)) as [Hx|Hx].
  - exists 0, x. done.
  - destruct IH as (i & a & Hi & Ha); [lia|]. exists (S i), a. done.
Qed.

Lemma sum_list_with_bound f l b :
  (forall a, a ∈ l -> f a <= b) -> sum_list_with f l <= b * length l.
Proof.
  induction l as [|x l IH]; simpl; intros H; [lia|].
  assert (f x <= b) by (apply H; left).
  assert (sum_list_with f l <= b * length l) by (apply IH; intros; apply H; by right).
  lia.
Qed.
End ListFacts.

Module CrashFacts.
Import Crash.

Lemma calls_app s1 s2 : calls (s1 ++ s2) = calls s1 ++ calls s2.
Proof.
  induction s1 as [|[fn r|r] s1 IH]; simpl; [done| |done]. by rewrite IH.
Qed.

Lemma reraised_app s1 s2 : reraised (s1 ++ s2) = reraised s1 ++ reraised s2.
Proof.
  induction s1 as [|[fn r|r] s1 IH]; simpl; [done|done|]. by rewrite IH.
Qed.

Lemma calls_range_call fns r :
  calls (range_call fns r) = map (fun fn => (fn, r)) fns.
Proof. induction fns as [|fn fns IH]; simpl; [done|]. by rewrite IH. Qed.

Lemma reraised_range_call fns r : reraised (range_call fns r) = [].
Proof. induction fns as [|fn fns IH]; simpl; done. Qed.

Lemma length_range_call fns r : length (range_call fns r) = length fns.
Proof. induction fns as [|fn fns IH]; simpl; [done|]. by rewrite IH. Qed.

Lemma range_call_lookup fns r i fn :
  fns !! i = Some fn -> range_call fns r !! i = Some (Call fn r).
Proof.
  revert i. induction fns as [|x fns IH]; intros [|i] Hi; simplify_eq/=; auto.
Qed.

Lemma reraised_HandleCrash cfg extras r :
  reraised (HandleCrash cfg extras r)
  = if ReallyCrash cfg && negb (is_nil r) then [r] else [].
Proof.
  unfold HandleCrash. destruct (is_nil r); simpl; [by rewrite andb_false_r|].
  rewrite !reraised_app, !reraised_range_call, andb_true_r.
  by destruct (ReallyCrash cfg).
Qed.

Lemma HandleCrash_nil cfg extras : HandleCrash cfg extras VNil = [].
Proof. reflexivity. Qed.

Lemma HandleCrash_fault cfg extras r :
  r <> VNil ->
  HandleCrash cfg extras r =
    range_call (map Global (PanicHandlers cfg)) r ++ range_call extras r
    ++ (if ReallyCrash cfg then [Repanic r] else []).
Proof. intros Hr. unfold HandleCrash. by destruct r. Qed.

Lemma length_HandleCrash cfg extras r :
  length (HandleCrash cfg extras r)
  <= length (PanicHandlers cfg) + length extras + 1.
Proof.
  unfold HandleCrash. destruct (is_nil r); simpl; [lia|].
  rewrite !length_app, !length_range_call, length_map.
  destruct (ReallyCrash cfg); simpl; lia.
Qed.

End CrashFacts.

(** ** The interleaving semantics *)

Module LoopFacts.
Import Crash Loop CrashFacts.

Lemma rearms_app s1 s2 : rearms (s1 ++ s2) = rearms s1 + rearms s2.
Proof. unfold rearms. by rewrite List.filter_app, length_app. Qed.

Lemma rearms_range_global hs r : rearms (range_call (map Global hs) r) = 0.
Proof. induction hs as [|h hs IH]; simpl; done. Qed.

Lemma rearms_HandleCrash cfg r :
  rearms (HandleCrash cfg [RearmStart] r) = if is_nil r then 0 else 1.
Proof.
  unfold HandleCrash. destruct (is_nil r); [done|].
  rewrite !rearms_app, rearms_range_global.
  by destruct (ReallyCrash cfg).
Qed.

Lemma rearms_nil : rearms [] = 0.
Proof. done. Qed.

Lemma rearms_cons_global h r s : rearms (Call (Global h) r :: s) = rearms s.
Proof. done. Qed.

Lemma rearms_cons_rearm r s : rearms (Call RearmStart r :: s) = S (rearms s).
Proof. done. Qed.

(** Splits a hypothesis [exec ... = Some s'] into the moves it can be. *)
Ltac exec_inv H :=
  unfold Loop.exec, cancel_step, recv_step, spawn_step, attempt_step,
    retire, Tomb.Kill in H;
  repeat (match type of H with
          | context [match ?x with _ => _ end] => destruct x eqn:?
          end; try discriminate H);
  simplify_eq.

(** Rewrites the goal with the equations at hand. *)
Ltac norm :=
  simpl in *;
  repeat match goal with
    | H : ?x = _ |- context [?x] => rewrite H
    end;
  simpl in *.

(** Brings in what an update of attempt [i] does to a sum over the
    attempts. *)
Ltac sum_insert f :=
  repeat match goal with
    | Hl : ?l !! ?i = Some ?a |- context [sum_list_with f (<[?i := ?a']> ?l)] =>
        let E := fresh "E" in
        pose proof (sum_list_with_insert f l i a a' Hl) as E;
        generalize dependent (sum_list_with f (<[i := a']> l)); intros
    end.

(** Unfolds the token count after a move. *)
Ltac tok :=
  unfold tokens; norm; sum_insert held; simpl in *;
  rewrite ?sum_list_with_app, ?rearms_HandleCrash, ?rearms_cons_rearm,
    ?rearms_cons_global, ?rearms_nil in *;
  simpl in *.

Section Steps.
Variables (v : variant) (cfg : Config) (do : work).

Lemma run_app ls1 ls2 s :
  run v cfg do (ls1 ++ ls2) s = run v cfg do ls1 s ≫= run v cfg do ls2.
Proof.
  revert s. induction ls1 as [|l ls1 IH]; intros s; simpl; [done|].
  destruct (exec v cfg do l s); simpl; auto.
Qed.

Lemma run_snoc ls l s s' :
  run v cfg do (ls ++ [l]) s = Some s' <->
  exists s1, run v cfg do ls s = Some s1 /\ exec v cfg do l s1 = Some s'.
Proof.
  rewrite run_app. split.
  - destruct (run v cfg do ls s) as [s1|] eqn:E; simpl; [|done].
    destruct (exec v cfg do l s1) eqn:E'; [|done]. intros; simplify_eq. eauto.
  - intros (s1 & -> & H). simpl. by rewrite H.
Qed.

(** Induction over the states a schedule goes through. *)
Lemma run_ind (P : state -> Prop) s0 :
  P s0 ->
  (forall l s s', P s -> exec v cfg do l s = Some s' -> P s') ->
  forall ls s, run v cfg do ls s0 = Some s -> P s.
Proof.
  intros H0 Hstep ls. revert s0 H0.
  induction ls as [|l ls IH]; intros s0 H0 s; simpl.
  - by intros [= <-].
  - destruct (exec v cfg do l s0) as [s1|] eqn:E; [|done]. eauto.
Qed.

Lemma reachable_ind (P : state -> Prop) t0 :
  P (init t0) ->
  (forall l s s', P s -> exec v cfg do l s = Some s' -> P s') ->
  forall s, reachable v cfg do t0 s -> P s.
Proof. intros H0 Hstep s [ls Hls]. eapply run_ind; eauto. Qed.

Lemma reachable_init t0 : reachable v cfg do t0 (init t0).
Proof. by exists []. Qed.

Lemma reachable_run t0 ls s s' :
  reachable v cfg do t0 s -> run v cfg do ls s = Some s' ->
  reachable v cfg do t0 s'.
Proof.
  intros [ls0 H0] H. exists (ls0 ++ ls). rewrite run_app, H0. done.
Qed.

Lemma reachable_exec t0 l s s' :
  reachable v cfg do t0 s -> exec v cfg do l s = Some s' ->
  reachable v cfg do t0 s'.
Proof.
  intros Hr H. apply (reachable_run t0 [l] s s' Hr). simpl. by rewrite H.
Qed.

(** The token is never duplicated. *)
Lemma tokens_exec l s s' :
  exec v cfg do l s = Some s' -> tokens s' <= tokens s.
Proof.
  intros H. exec_inv H; tok; try lia.
  all: try (destruct v; simpl; lia).
  all: destruct (is_nil _); lia.
Qed.

Lemma reachable_ind_strong (P : state -> Prop) t0 :
  P (init t0) ->
  (forall l s s',
      reachable v cfg do t0 s -> P s -> exec v cfg do l s = Some s' -> P s') ->
  forall s, reachable v cfg do t0 s -> P s.
Proof.
  intros H0 Hstep s Hs.
  cut (reachable v cfg do t0 s /\ P s); [tauto|].
  revert s Hs. apply reachable_ind.
  - split; [apply reachable_init|done].
  - intros l s s' [Hr HP] H. split; [by eapply reachable_exec|eauto].
Qed.

(** *** What a move leaves alone *)

Lemma exec_length l s s' :
  exec v cfg do l s = Some s' ->
  attempts s' = attempts s
  \/ length (attempts s') = length (attempts s) /\ l <> LSpawn
  \/ l = LSpawn /\ driver s = DSpawn /\ attempts s' = attempts s ++ [ARun]
     /\ start_closed s' = start_closed s.
Proof.
  intros H. exec_inv H; norm; rewrite ?length_insert; auto 10.
Qed.

Lemma exec_length_le l s s' :
  exec v cfg do l s = Some s' -> length (attempts s) <= length (attempts s').
Proof.
  intros H. destruct (exec_length _ _ _ H) as [->|[[-> _]|(_ & _ & -> & _)]];
    rewrite ?length_app; simpl; lia.
Qed.

Lemma exec_lookup_other l s s' k a :
  exec v cfg do l s = Some s' ->
  l <> LAttempt k -> l <> LRecv (Handler k) ->
  attempts s !! k = Some a -> attempts s' !! k = Some a.
Proof.
  intros H Hl1 Hl2 Hk. exec_inv H; norm; auto;
    try (rewrite list_lookup_insert_ne; [done|congruence]);
    try (by apply lookup_app_l_Some).
Qed.

Lemma exec_start_closed l s s' :
  exec v cfg do l s = Some s' ->
  start_closed s' = start_closed s
  \/ exists i e, l = LAttempt i /\ attempts s !! i = Some (AClose e)
                 /\ start_closed s = false /\ start_closed s' = true
                 /\ attempts s' = <[i := ADefer [] e]> (attempts s).
Proof.
  intros H. exec_inv H; norm; auto. right. eauto 10.
Qed.

Lemma exec_closed_mono l s s' :
  exec v cfg do l s = Some s' ->
  start_closed s = true -> start_closed s' = true.
Proof.
  intros H Hc. destruct (exec_start_closed _ _ _ H) as [->|(?&?&?&?&?&?&?)];
    congruence.
Qed.

Lemma exec_driver_done l s s' :
  exec v cfg do l s = Some s' -> driver s = DDone ->
  driver s' = DDone /\ attempts s' = attempts s \/
  driver s' = DDone /\ length (attempts s') = length (attempts s).
Proof.
  intros H Hd. exec_inv H; norm; rewrite ?length_insert; auto; congruence.
Qed.

(** *** The single token *)

Lemma tokens_le_one t0 s : reachable v cfg do t0 s -> tokens s <= 1.
Proof.
  revert s. apply reachable_ind; [done|].
  intros l s s' IH H. pose proof (tokens_exec _ _ _ H). lia.
Qed.

Lemma closing_takes_token l s s' :
  exec v cfg do l s = Some s' ->
  start_closed s = false -> start_closed s' = true ->
  tokens s' + 1 = tokens s.
Proof.
  intros H Hc Hc'. exec_inv H; norm; try congruence.
  tok. lia.
Qed.

Lemma closed_no_token t0 s :
  reachable v cfg do t0 s -> start_closed s = true -> tokens s = 0.
Proof.
  revert s.
  apply (reachable_ind_strong (fun s => start_closed s = true -> tokens s = 0));
    [done|].
  intros l s s' Hr IH H Hc.
  destruct (start_closed s) eqn:Hcs.
  - pose proof (tokens_exec _ _ _ H). specialize (IH eq_refl). lia.
  - pose proof (closing_takes_token _ _ _ H Hcs Hc).
    pose proof (tokens_le_one _ _ Hr). lia.
Qed.

Lemma token_with_attempt t0 s i a :
  reachable v cfg do t0 s -> attempts s !! i = Some a ->
  (if seeder s then 1 else 0) + driver_holds (driver s) + held a <= 1.
Proof.
  intros Hr Hi. pose proof (tokens_le_one _ _ Hr) as Ht.
  pose proof (sum_list_with_lookup held _ _ _ Hi). unfold tokens in Ht. lia.
Qed.

Lemma token_two_attempts t0 s i j a b :
  reachable v cfg do t0 s -> i <> j ->
  attempts s !! i = Some a -> attempts s !! j = Some b ->
  held a + held b <= 1.
Proof.
  intros Hr Hij Hi Hj. pose proof (tokens_le_one _ _ Hr) as Ht.
  pose proof (sum_list_with_insert held _ _ _ (ADone ErrNil) Hi) as E.
  assert (<[i := ADone ErrNil]> (attempts s) !! j = Some b) as Hj'
    by (by rewrite list_lookup_insert_ne).
  pose proof (sum_list_with_lookup held _ _ _ Hj').
  unfold tokens in Ht. simpl in E. lia.
Qed.

Lemma closed_attempt_idle t0 s i a :
  reachable v cfg do t0 s -> start_closed s = true ->
  attempts s !! i = Some a -> held a = 0.
Proof.
  intros Hr Hc Hi. pose proof (closed_no_token _ _ Hr Hc) as Ht.
  pose proof (sum_list_with_lookup held _ _ _ Hi). unfold tokens in Ht. lia.
Qed.

Lemma closed_driver_idle t0 s :
  reachable v cfg do t0 s -> start_closed s = true ->
  driver s = DRecv \/ driver s = DDone.
Proof.
  intros Hr Hc. pose proof (closed_no_token _ _ Hr Hc) as Ht.
  unfold tokens in Ht. destruct (driver s); simpl in Ht; auto; lia.
Qed.


(** *** One attempt through a move *)

Lemma exec_lookup l s s' k a' :
  exec v cfg do l s = Some s' -> attempts s' !! k = Some a' ->
  attempts s !! k = Some a'
  \/ (l = LSpawn /\ a' = ARun /\ k = length (attempts s))
  \/ (exists a, attempts s !! k = Some a
                /\ local cfg do k (start_closed s) a a'
                /\ (l = LAttempt k \/ l = LRecv (Handler k))
                /\ length (attempts s') = length (attempts s)
                /\ start_closed s' =
                     match a with
                     | AClose _ => true
                     | _ => start_closed s
                     end).
Proof.
  intros H Hk. exec_inv H; norm; auto;
  try match goal with
    | Hi : attempts ?s0 !! ?i = Some ?a,
      Hk : <[?i := ?b]> (attempts ?s0) !! k = _ |- _ =>
        destruct (decide (i = k)) as [->|Hne];
        [ rewrite list_lookup_insert_eq in Hk by (by eapply lookup_lt_Some);
          simplify_eq; right; right; eexists; split; [done|]; split;
          [by (constructor; auto)|rewrite ?length_insert; auto]
        | rewrite list_lookup_insert_ne in Hk by done; auto ]
    end;
  try match goal with
    | Hk : (attempts ?s0 ++ [ARun]) !! k = _ |- _ =>
        apply lookup_app_Some in Hk as [Hk|[Hge Hk]]; [by auto|];
        apply list_lookup_singleton_Some in Hk as [Hz <-];
        right; left; split; [done|split; [done|lia]]
    end.
Qed.


(** *** An attempt that returns *)

Lemma returns_phase t0 k e s :
  do k = Returns e -> reachable v cfg do t0 s ->
  k < length (attempts s) -> returning k e s.
Proof.
  intros Hdo. revert s.
  apply (reachable_ind_strong
           (fun s => k < length (attempts s) -> returning k e s)).
  { simpl. lia. }
  intros l s s' Hr IH H Hlt.
  destruct (attempts s' !! k) as [a'|] eqn:Hk';
    [|apply lookup_ge_None in Hk'; lia].
  destruct (exec_lookup _ _ _ _ _ H Hk')
    as [Hsame|[(-> & -> & ->)|(a & Ha & Hloc & Hl & Hlen & Hcl)]].
  - (* attempt [k] does not move *)
    destruct (IH (lookup_lt_Some _ _ _ Hsame)) as [Hlen Hph].
    assert (length (attempts s') = S k) as Hlen'.
    { destruct (exec_length _ _ _ H) as [->|[[-> _]|(_ & Hd & _ & _)]];
        [done|done|].
      pose proof (token_with_attempt _ _ _ _ Hr Hsame) as Ht.
      rewrite Hd in Ht. simpl in Ht.
      destruct Hph as [[[Hk|Hk] _]|[_ Hc]].
      - rewrite Hk in Hsame. simplify_eq. simpl in Ht. lia.
      - rewrite Hk in Hsame. simplify_eq. simpl in Ht. lia.
      - destruct (closed_driver_idle _ _ Hr Hc); congruence. }
    split; [done|].
    destruct (exec_start_closed _ _ _ H)
      as [Hc|(i & e0 & -> & Hi & Hc & Hc' & Hat)].
    + rewrite Hc, Hk', <- Hsame. done.
    + destruct (decide (i = k)) as [->|Hne].
      * rewrite Hat, list_lookup_insert_eq in Hk' by (by eapply lookup_lt_Some).
        congruence.
      * destruct Hph as [[[Hk|Hk] _]|[_ Hc0]]; [| |congruence].
        -- pose proof (token_two_attempts _ _ _ _ _ _ Hr Hne Hi Hk).
           simpl in *. lia.
        -- pose proof (token_two_attempts _ _ _ _ _ _ Hr Hne Hi Hk).
           simpl in *. lia.
  - (* attempt [k] is the one launched *)
    destruct (exec_length _ _ _ H) as [Heq|[[_ Hn]|(_ & Hd & Heq & Hc)]];
      [|done|].
    { rewrite Heq in Hk'. apply lookup_lt_Some in Hk'. lia. }
    split; [rewrite Heq, length_app; simpl; lia|].
    left. split; [by left|]. rewrite Hc.
    destruct (start_closed s) eqn:Hcs; [|done].
    destruct (closed_driver_idle _ _ Hr Hcs); congruence.
  - (* attempt [k] moves *)
    destruct (IH (lookup_lt_Some _ _ _ Ha)) as [Hlen0 Hph].
    split; [congruence|]. rewrite Hk'.
    inversion Hloc; subst; rewrite Hcl;
      destruct Hph as [[[Hk|Hk] Hc]|[[Hk|Hk] Hc]];
      rewrite Hk in Ha; simplify_eq; try congruence.
    + assert (e0 = e) as -> by congruence. left. split; [by right|done].
    + right. split; [by left|done].
    + right. split; [by right|done].
Qed.


(** *** Tokens, traces and signals through a move *)

Lemma exec_attempt_tokens i s s' a a' :
  exec v cfg do (LAttempt i) s = Some s' ->
  attempts s !! i = Some a -> attempts s' !! i = Some a' ->
  tokens s' + held a = tokens s + held a'.
Proof.
  intros H Hi Hi'. pose proof (lookup_lt_Some _ _ _ Hi) as Hlt.
  exec_inv H; simpl in *; rewrite ?list_lookup_insert_eq in Hi' by done;
    simplify_eq; tok; lia.
Qed.

Lemma exec_trace l s s' :
  exec v cfg do l s = Some s' ->
  (trace s' = trace s
   /\ forall i c rest ret,
        attempts s !! i = Some (ADefer (c :: rest) ret) ->
        attempts s' !! i = Some (ADefer (c :: rest) ret))
  \/ exists i fn r rest ret,
       trace s' = trace s ++ [(i, fn, r)]
       /\ attempts s !! i = Some (ADefer (Call fn r :: rest) ret)
       /\ attempts s' = <[i := ADefer rest ret]> (attempts s).
Proof.
  intros H. exec_inv H; norm; eauto 10; left; (split; [done|]);
    intros j c' rest' ret' Hj;
    try (by apply lookup_app_l_Some);
    match goal with
    | Hi : attempts ?s0 !! ?i = Some _ |- _ =>
        destruct (decide (i = j)) as [->|Hne];
        [congruence|by rewrite list_lookup_insert_ne]
    end.
Qed.

Lemma kill_dying why t t' :
  Tomb.kill why t = Some t' -> Tomb.dying t = true -> Tomb.dying t' = true.
Proof.
  unfold Tomb.kill. intros H Hd.
  destruct why, (Tomb.reason t); simplify_eq/=; done.
Qed.

Lemma run_exit_dying err t t' :
  Tomb.run_exit err t = Some t' ->
  Tomb.dying t = true -> Tomb.dying t' = true.
Proof.
  unfold Tomb.run_exit. intros H Hd.
  repeat (match type of H with
          | context [match ?x with _ => _ end] => destruct x eqn:?
          end; try discriminate H); simplify_eq; simpl; try done;
    match goal with
    | Hk : Tomb.kill _ _ = Some _ |- _ => by apply kill_dying in Hk
    end.
Qed.

Lemma exec_signaled l s s' :
  exec v cfg do l s = Some s' ->
  signaled v s = true -> signaled v s' = true.
Proof.
  intros H Hs. unfold signaled in *.
  exec_inv H; norm; try done;
    try match goal with
      | Hk : Tomb.kill _ _ = Some _ |- _ => by apply kill_dying in Hk
      | Hk : Tomb.run_exit _ _ = Some _ |- _ => by apply run_exit_dying in Hk
      | Hk : Tomb.Go _ = Some _ |- _ =>
          unfold Tomb.Go in Hk; destruct (Tomb.dead _); by simplify_eq/=
      end.
Qed.


(** *** Every move of the program makes progress *)

Local Notation "'registry_size'" := (length (PanicHandlers cfg)).

Lemma scripts_bounded t0 s i sc ret :
  reachable v cfg do t0 s -> attempts s !! i = Some (ADefer sc ret) ->
  length sc <= registry_size + 2.
Proof.
  intros Hr. revert i sc ret. revert s Hr.
  apply (reachable_ind
           (fun s => forall i sc ret,
                attempts s !! i = Some (ADefer sc ret) ->
                length sc <= registry_size + 2)).
  { intros i sc ret Hi. simpl in Hi. by rewrite lookup_nil in Hi. }
  intros l s s' IH H i sc ret Hi.
  destruct (exec_lookup _ _ _ _ _ H Hi)
    as [Hsame|[(_ & ? & _)|(a & Ha & Hloc & _)]]; [eauto|done|].
  inversion Hloc; subst; simpl; try lia.
  - pose proof (length_HandleCrash cfg [RearmStart] r). simpl in *. lia.
  - pose proof (length_HandleCrash cfg [RearmStart] close_of_closed).
    simpl in *. lia.
  - specialize (IH _ _ _ Ha). simpl in IH. lia.
Qed.

Lemma potential_exec t0 l s s' :
  reachable v cfg do t0 s -> exec v cfg do l s = Some s' ->
  potential cfg s + (if is_cancel l then 0 else 1) <= potential cfg s'.
Proof.
  intros Hr H.
  assert (forall i c sc ret,
             attempts s !! i = Some (ADefer (c :: sc) ret) ->
             S (length sc) <= registry_size + 2) as Hb.
  { intros i c sc ret Hi. apply (scripts_bounded _ _ _ _ _ Hr Hi). }
  pose proof (length_HandleCrash cfg [RearmStart]) as Hl.
  exec_inv H; unfold potential; norm; rewrite ?length_insert, ?length_app;
    sum_insert (progress registry_size);
    rewrite ?sum_list_with_app; simpl in *;
    try match goal with
      | Hi : attempts _ !! _ = Some (ADefer (_ :: _) _) |- _ =>
          pose proof (Hb _ _ _ _ Hi)
      end;
    try match goal with
      | |- context [HandleCrash cfg [RearmStart] ?r] =>
          specialize (Hl r)
      | E : context [HandleCrash cfg [RearmStart] ?r] |- _ =>
          specialize (Hl r)
      end;
    simpl in *; try lia;
    try (destruct v; simpl; lia);
    try (destruct (signaled _ _); simpl; lia).
Qed.

Lemma potential_run t0 ls s s' :
  reachable v cfg do t0 s -> run v cfg do ls s = Some s' ->
  potential cfg s + moves ls <= potential cfg s'.
Proof.
  revert s. induction ls as [|l ls IH]; intros s Hr; simpl.
  - intros [= <-]. unfold moves. simpl. lia.
  - destruct (exec v cfg do l s) as [s1|] eqn:E; [|done]. intros H.
    pose proof (potential_exec _ _ _ _ Hr E).
    pose proof (IH _ (reachable_exec _ _ _ _ Hr E) H).
    unfold moves in *. simpl. destruct (is_cancel l); simpl; lia.
Qed.

Lemma progress_bounded a :
  progress registry_size a <= registry_size + 5.
Proof. destruct a; simpl; lia. Qed.

Lemma potential_bound s :
  potential cfg s <= (registry_size + 8) * length (attempts s) + 4.
Proof.
  unfold potential.
  pose proof (sum_list_with_bound (progress registry_size) (attempts s)
                (registry_size + 5) (fun a _ => progress_bounded a)).
  destruct (driver s), (crashed s); simpl; lia.
Qed.

(** A schedule from the start makes at most this many moves of the
    program, given the number of attempts it launches. *)
Lemma moves_bounded t0 ls s :
  run v cfg do ls (init t0) = Some s ->
  moves ls <= (registry_size + 8) * length (attempts s) + 4.
Proof.
  intros H. pose proof (potential_run t0 _ _ _ (reachable_init t0) H).
  pose proof (potential_bound s). lia.
Qed.


(** *** An attempt that panics *)

Lemma panics_phase t0 k r s a :
  do k = Panics r -> reachable v cfg do t0 s ->
  attempts s !! k = Some a ->
  a = ARun
  \/ (exists sc, a = ADefer sc ErrNil
                 /\ sc `suffix_of` HandleCrash cfg [RearmStart] r)
  \/ a = ADone ErrNil.
Proof.
  intros Hdo Hr. revert a. revert s Hr.
  apply (reachable_ind
           (fun s => forall a, attempts s !! k = Some a ->
                a = ARun
                \/ (exists sc, a = ADefer sc ErrNil
                      /\ sc `suffix_of` HandleCrash cfg [RearmStart] r)
                \/ a = ADone ErrNil)).
  { intros a Ha. simpl in Ha. by rewrite lookup_nil in Ha. }
  intros l s s' IH H a' Hk'.
  destruct (exec_lookup _ _ _ _ _ H Hk')
    as [Hsame|[(_ & -> & _)|(a & Ha & Hloc & _)]]; [eauto|by left|].
  specialize (IH _ Ha).
  inversion Hloc; subst; try congruence.
  - right; left. eexists; split; [done|]. by replace r0 with r by congruence.
  - destruct IH as [?|[(? & ? & _)|?]]; done.
  - destruct IH as [?|[(? & ? & _)|?]]; done.
  - destruct IH as [?|[(sc & ? & Hsuf)|?]]; simplify_eq.
    right; left. eexists; split; [done|]. by eapply suffix_cons_l.
  - destruct IH as [?|[(sc & ? & Hsuf)|?]]; simplify_eq. by right; right.
Qed.

Lemma recv_handler_inv k s s' :
  exec v cfg do (LRecv (Handler k)) s = Some s' ->
  exists r rest ret,
    attempts s !! k = Some (ADefer (Call RearmStart r :: rest) ret)
    /\ driver s = DRecv /\ start_closed s = false.
Proof. intros H. exec_inv H. eauto 10. Qed.

Lemma recv_seeder_inv s s' :
  exec v cfg do (LRecv Seeder) s = Some s' ->
  seeder s = true /\ driver s = DRecv.
Proof. intros H. by exec_inv H. Qed.

(** An attempt whose call panics with the nil value: it is the last
    attempt, [start] stays open, and the token is gone as soon as the
    call is over. *)
Lemma nil_phase t0 k s :
  do k = Panics VNil -> reachable v cfg do t0 s ->
  k < length (attempts s) ->
  length (attempts s) = S k /\ start_closed s = false
  /\ exists a, attempts s !! k = Some a /\ tokens s = held a
       /\ (a = ARun \/ a = ADefer [] ErrNil \/ a = ADone ErrNil).
Proof.
  intros Hdo. revert s.
  assert (forall s a, reachable v cfg do t0 s -> attempts s !! k = Some a ->
            a = ARun \/ a = ADefer [] ErrNil \/ a = ADone ErrNil) as Hshape.
  { intros s a Hr Ha.
    destruct (panics_phase _ _ _ _ _ Hdo Hr Ha) as [?|[(sc & -> & Hsuf)|?]];
      auto.
    apply suffix_nil_inv in Hsuf as ->. auto. }
  apply (reachable_ind_strong
           (fun s => k < length (attempts s) ->
              length (attempts s) = S k /\ start_closed s = false
              /\ exists a, attempts s !! k = Some a /\ tokens s = held a
                   /\ (a = ARun \/ a = ADefer [] ErrNil \/ a = ADone ErrNil))).
  { simpl. lia. }
  intros l s s' Hr IH H Hlt.
  pose proof (reachable_exec _ _ _ _ Hr H) as Hr'.
  destruct (attempts s' !! k) as [a'|] eqn:Hk';
    [|apply lookup_ge_None in Hk'; lia].
  pose proof (Hshape _ _ Hr' Hk') as Ha'.
  pose proof (sum_list_with_lookup held _ _ _ Hk') as Hge.
  destruct (exec_lookup _ _ _ _ _ H Hk')
    as [Hsame|[(-> & -> & ->)|(a & Ha & Hloc & Hl & Hlen & Hcl)]].
  - destruct (IH (lookup_lt_Some _ _ _ Hsame))
      as (Hlen & Hc & a & Ha & Ht & _).
    assert (a = a') as -> by congruence.
    pose proof (tokens_exec _ _ _ H) as Hmono.
    assert (tokens s' = held a') as Ht'
      by (unfold tokens in *; lia).
    split; [|split; [|eauto]].
    + destruct (exec_length _ _ _ H) as [->|[[-> _]|(_ & Hd & _ & _)]];
        [done|done|].
      unfold tokens in Ht. rewrite Hd in Ht. simpl in Ht.
      pose proof (sum_list_with_lookup held _ _ _ Hsame). lia.
    + destruct (exec_start_closed _ _ _ H)
        as [->|(i & e0 & -> & Hi & _ & _ & _)]; [done|].
      destruct (decide (i = k)) as [->|Hne].
      * rewrite Hi in Hsame. simplify_eq. destruct Ha' as [?|[?|?]]; done.
      * pose proof (token_two_attempts _ _ _ _ _ _ Hr Hne Hi Hsame).
        pose proof (sum_list_with_lookup held _ _ _ Hi).
        unfold tokens in Ht. simpl in *. lia.
  - destruct (exec_length _ _ _ H) as [Heq|[[_ Hn]|(_ & Hd & Heq & Hc)]];
      [|done|].
    { rewrite Heq in Hk'. apply lookup_lt_Some in Hk'. lia. }
    split; [rewrite Heq, length_app; simpl; lia|]. split.
    + rewrite Hc. destruct (start_closed s) eqn:Hcs; [|done].
      destruct (closed_driver_idle _ _ Hr Hcs); congruence.
    + exists ARun. split; [done|]. split; [|by left].
      pose proof (tokens_le_one _ _ Hr'). unfold tokens in *.
      simpl in *. lia.
  - destruct (IH (lookup_lt_Some _ _ _ Ha)) as (Hlen0 & Hc & a0 & Ha0 & Ht & Hsh).
    assert (a0 = a) as -> by congruence.
    split; [congruence|]. split.
    + rewrite Hcl. destruct Hsh as [-> | [-> | ->]]; done.
    + exists a'. split; [done|]. split; [|done].
      destruct Hl as [Hl|Hl]; subst l.
      * pose proof (exec_attempt_tokens _ _ _ _ _ H Ha Hk'). lia.
      * destruct (recv_handler_inv _ _ _ H) as (r & rest & ret & Hk & _).
        rewrite Hk in Ha. simplify_eq. destruct Hsh as [?|[?|?]]; done.
Qed.


(** *** A unit of work that always faults *)

Lemma run_ind_labels (Q : label -> Prop) (P : state -> Prop) t0 :
  P (init t0) ->
  (forall l s s',
      Q l -> reachable v cfg do t0 s -> P s ->
      exec v cfg do l s = Some s' -> P s') ->
  forall ls s,
    Forall Q ls -> run v cfg do ls (init t0) = Some s -> P s.
Proof.
  intros H0 Hstep ls. induction ls as [|l ls IH] using rev_ind; intros s HQ.
  - by intros [= <-].
  - apply Forall_app in HQ as [HQ Hl].
    apply (proj1 (Forall_singleton Q l)) in Hl.
    intros H. destruct (proj1 (run_snoc _ _ _ _) H) as (s1 & H1 & H').
    apply (Hstep l s1 s); [done|by exists ls|by apply IH|done].
Qed.

Lemma faulting_scripts t0 s i a :
  ReallyCrash cfg = false -> faulting do ->
  reachable v cfg do t0 s -> attempts s !! i = Some a ->
  match a with
  | AClose _ => False
  | ADefer sc _ => reraised sc = []
  | _ => True
  end.
Proof.
  intros Hrc Hf Hr. revert i a. revert s Hr.
  apply (reachable_ind
           (fun s => forall i a, attempts s !! i = Some a ->
              match a with
              | AClose _ => False
              | ADefer sc _ => reraised sc = []
              | _ => True
              end)).
  { intros i a Ha. simpl in Ha. by rewrite lookup_nil in Ha. }
  intros l s s' IH H i a' Hi'.
  destruct (exec_lookup _ _ _ _ _ H Hi')
    as [Hsame|[(_ & -> & _)|(a & Ha & Hloc & _)]];
    [by apply (IH i)|done|].
  specialize (IH _ _ Ha). destruct (Hf i) as (r & Hdo & Hnn).
  inversion Hloc; subst; simpl in *; try done; try congruence.
  - rewrite reraised_HandleCrash, Hrc. done.
  - destruct c; simpl in IH; done.
Qed.

Lemma faulting_in_service t0 ls s :
  v <> VTomb -> ReallyCrash cfg = false -> faulting do ->
  Forall (fun l => is_cancel l = false) ls ->
  run v cfg do ls (init t0) = Some s -> in_service s.
Proof.
  intros Hv Hrc Hf. revert ls s.
  apply (run_ind_labels (fun l => is_cancel l = false) in_service).
  { by repeat split. }
  intros l s s' Hl Hr (Hst & Hc & Hcr & Hd & Ht) H.
  pose proof (fun i a => faulting_scripts t0 s i a Hrc Hf Hr) as Hsc.
  assert (forall i r, do i = Panics r -> is_nil r = false) as Hnn.
  { intros i r Hi. destruct (Hf i) as (r' & Hi' & ?).
    assert (r' = r) as -> by congruence. by destruct r. }
  unfold in_service. revert Hr H. destruct v; [| |done]; intros Hr H.
  all: exec_inv H;
    try match goal with
      | Hi : attempts _ !! ?i = Some _ |- _ => pose proof (Hsc _ _ Hi)
      end;
    try match goal with
      | Hi : do _ = Panics _ |- _ => pose proof (Hnn _ _ Hi)
      end;
    simpl in *; try done; try congruence;
    (repeat split; simpl; try done; try congruence);
    revert Ht; tok; intros;
    repeat match goal with
      | Hi : is_nil _ = false |- _ => rewrite Hi in *
      end;
    lia.
Qed.


(** Evaluates a move at a state whose relevant fields are known. *)
Ltac fire :=
  unfold exec, recv_step, spawn_step, attempt_step;
  repeat match goal with
    | H : ?x = _ |- context [?x] => rewrite H
    end;
  simpl; eauto.

Lemma faulting_progress t0 s :
  v <> VTomb -> ReallyCrash cfg = false -> faulting do ->
  reachable v cfg do t0 s -> in_service s ->
  exists l s', is_cancel l = false /\ exec v cfg do l s = Some s'.
Proof.
  intros Hv Hrc Hf Hr (Hst & Hc & Hcr & Hd & Ht). unfold tokens in Ht.
  destruct (driver s) eqn:Hdr; simpl in Ht; [|exists LCheck|exists LSpawn|done].
  - destruct (seeder s) eqn:Hse.
    { exists (LRecv Seeder). eexists. split; [done|]. fire. }
    destruct (sum_list_with_pos held (attempts s)) as (i & a & Hi & Ha);
      [lia|].
    pose proof (faulting_scripts _ _ _ _ Hrc Hf Hr Hi) as Hsc.
    destruct a as [|e|[|[[h|] r|r] rest] ret|ret]; simpl in *;
      unfold rearms in *; simpl in *; try done; try lia.
    + destruct (Hf i) as (r & Hdo & _).
      exists (LAttempt i). eexists. split; [done|]. fire.
    + exists (LAttempt i). eexists. split; [done|]. fire.
    + exists (LRecv (Handler i)). eexists. split; [done|]. fire.
  - eexists. split; [done|]. fire.
  - eexists. split; [done|]. fire. destruct v; eauto. done.
Qed.


Lemma moves_all ls :
  Forall (fun l => is_cancel l = false) ls -> moves ls = length ls.
Proof.
  unfold moves. induction 1 as [|l ls Hl _ IH]; simpl; [done|].
  rewrite Hl. simpl. by rewrite IH.
Qed.

(** *** After a normal completion *)

Lemma returning_progress t0 k e s :
  do k = Returns e -> reachable v cfg do t0 s -> returning k e s ->
  crashed s = false -> driver s <> DDone ->
  exists l s', is_cancel l = false /\ exec v cfg do l s = Some s'.
Proof.
  intros Hdo Hr [_ [[[Hk|Hk] Hc]|[_ Hc]]] Hcr Hd.
  - exists (LAttempt k). eexists. split; [done|]. fire.
  - exists (LAttempt k). eexists. split; [done|]. fire.
  - exists LClosed. eexists. split; [done|].
    destruct (closed_driver_idle _ _ Hr Hc) as [Hdr|Hdr]; [|done]. fire.
Qed.

Lemma closed_returns t0 s :
  reachable v cfg do t0 s -> start_closed s = true ->
  crashed s = false -> driver s <> DDone ->
  exec v cfg do LClosed s = Some (set_driver DDone s).
Proof.
  intros Hr Hc Hcr Hd.
  destruct (closed_driver_idle _ _ Hr Hc) as [Hdr|Hdr]; [|done]. fire.
Qed.

Lemma closed_calls_finished t0 s :
  reachable v cfg do t0 s -> start_closed s = true ->
  calls_finished s = length (attempts s).
Proof.
  intros Hr Hc. unfold calls_finished.
  assert (forall a, a ∈ attempts s -> finished a = true) as Hall.
  { intros a [i Hi]%list_elem_of_lookup_1.
    pose proof (closed_attempt_idle _ _ _ _ Hr Hc Hi). by destruct a. }
  induction (attempts s) as [|a l IH]; simpl; [done|].
  rewrite (Hall a) by left. simpl. rewrite IH; [done|].
  intros b Hb. apply Hall. by right.
Qed.

Lemma run_closed_mono ls s s' :
  run v cfg do ls s = Some s' ->
  start_closed s = true -> start_closed s' = true.
Proof.
  intros H Hc. revert H.
  apply (run_ind (fun s1 => start_closed s1 = true)); [done|].
  intros l s1 s2 IH H. by eapply exec_closed_mono.
Qed.

(** *** After the loop has returned, and after cancellation *)

Lemma run_driver_done ls s s' :
  run v cfg do ls s = Some s' -> driver s = DDone ->
  driver s' = DDone /\ length (attempts s') = length (attempts s).
Proof.
  intros H Hd. revert H.
  apply (run_ind (fun s1 => driver s1 = DDone
                            /\ length (attempts s1) = length (attempts s)));
    [done|].
  intros l s1 s2 [Hd1 Hl1] H.
  destruct (exec_driver_done _ _ _ H Hd1) as [[? Heq]|[? Heq]];
    split; congruence.
Qed.

Lemma exec_cancelled l s s' :
  v <> VSelect -> exec v cfg do l s = Some s' ->
  signaled v s = true -> driver s <> DSpawn ->
  driver s' <> DSpawn /\ length (attempts s') = length (attempts s).
Proof.
  intros Hv H Hs Hd.
  exec_inv H; norm; rewrite ?length_insert; try done;
    destruct v; simpl in *; try done; rewrite ?Hs; done.
Qed.

Lemma run_cancelled ls s s' :
  v <> VSelect -> run v cfg do ls s = Some s' ->
  signaled v s = true -> driver s <> DSpawn ->
  signaled v s' = true /\ driver s' <> DSpawn
  /\ length (attempts s') = length (attempts s).
Proof.
  intros Hv H Hs Hd. revert H.
  apply (run_ind (fun s1 => signaled v s1 = true /\ driver s1 <> DSpawn
                    /\ length (attempts s1) = length (attempts s)));
    [done|].
  intros l s1 s2 (Hs1 & Hd1 & Hl1) H.
  destruct (exec_cancelled _ _ _ Hv H Hs1 Hd1) as [? ?].
  split; [by eapply exec_signaled|]. split; [done|congruence].
Qed.

(** *** No panic escapes under the default flag *)

Lemma scripts_contained t0 s i sc ret :
  ReallyCrash cfg = false ->
  reachable v cfg do t0 s -> attempts s !! i = Some (ADefer sc ret) ->
  reraised sc = [].
Proof.
  intros Hrc Hr. revert i sc ret. revert s Hr.
  apply (reachable_ind
           (fun s => forall i sc ret,
                attempts s !! i = Some (ADefer sc ret) -> reraised sc = [])).
  { intros i sc ret Hi. simpl in Hi. by rewrite lookup_nil in Hi. }
  intros l s s' IH H i sc ret Hi.
  destruct (exec_lookup _ _ _ _ _ H Hi)
    as [Hsame|[(_ & ? & _)|(a & Ha & Hloc & _)]]; [eauto|done|].
  inversion Hloc; subst; simpl; try done.
  - by rewrite reraised_HandleCrash, Hrc.
  - by rewrite reraised_HandleCrash, Hrc.
  - specialize (IH _ _ _ Ha). destruct c; simpl in IH; done.
Qed.

Lemma never_crashes t0 s :
  v <> VTomb -> ReallyCrash cfg = false ->
  reachable v cfg do t0 s -> crashed s = false.
Proof.
  intros Hv Hrc. revert s.
  apply (reachable_ind_strong (fun s => crashed s = false)); [done|].
  intros l s s' Hr IH H.
  pose proof (fun i sc ret => scripts_contained t0 s i sc ret Hrc Hr) as Hsc.
  pose proof (fun i a => closed_attempt_idle t0 s i a Hr) as Hidle.
  exec_inv H; norm; try done;
    try match goal with
      | Hi : attempts _ !! _ = Some (ADefer _ _) |- _ =>
          pose proof (Hsc _ _ _ Hi)
      end;
    try match goal with
      | Hi : attempts _ !! _ = Some (ADefer _ _) |- _ =>
          pose proof (Hidle _ _ eq_refl Hi)
      end;
    simpl in *; unfold rearms in *; simpl in *; try done; destruct v; done.
Qed.


(** *** The handler calls of an attempt *)

Lemma events_of_app i tr1 tr2 :
  events_of i (tr1 ++ tr2) = events_of i tr1 ++ events_of i tr2.
Proof.
  induction tr1 as [|[[j fn] r] tr1 IH]; simpl; [done|].
  destruct (Nat.eqb j i); simpl; by rewrite IH.
Qed.

Lemma events_of_elem i fn r tr :
  (fn, r) ∈ events_of i tr <-> (i, fn, r) ∈ tr.
Proof.
  induction tr as [|[[j fn'] r'] tr IH]; simpl.
  - split; intros H; inversion H.
  - destruct (Nat.eqb_spec j i) as [->|Hne]; rewrite ?elem_of_cons, IH.
    + split; (intros [?|?]; [left; congruence|by right]).
    + split; [by right|]. intros [?|?]; [congruence|done].
Qed.



Lemma calls_accounted_inv t0 s i r :
  do i = Panics r -> reachable v cfg do t0 s -> calls_accounted cfg r i s.
Proof.
  intros Hdo. revert s.
  apply (reachable_ind_strong (calls_accounted cfg r i)); [done|].
  intros l s s' Hr IH H. unfold calls_accounted in *.
  destruct (exec_trace _ _ _ H)
    as [[Htr Hkeep]|(j & fn & r0 & rest & ret & Htr & Hj & Hat)].
  - rewrite Htr. destruct (attempts s' !! i) as [a'|] eqn:Hi'.
    + destruct (exec_lookup _ _ _ _ _ H Hi')
        as [Hsame|[(_ & -> & ->)|(a & Ha & Hloc & _)]].
      * by rewrite Hsame in IH.
      * by rewrite (lookup_ge_None_2 (attempts s) (length (attempts s))) in IH.
      * rewrite Ha in IH.
        pose proof (panics_phase _ _ _ _ _ Hdo Hr Ha) as Hph.
        inversion Hloc; subst; try congruence.
        -- replace r0 with r by congruence. by rewrite IH.
        -- destruct Hph as [?|[(? & ? & _)|?]]; done.
        -- destruct Hph as [?|[(? & ? & _)|?]]; done.
        -- rewrite (Hkeep _ _ _ _ Ha) in Hi'. simplify_eq.
           match goal with
           | E : _ :: ?l = ?l |- _ => apply (f_equal length) in E; simpl in E; lia
           end.
        -- by rewrite app_nil_r in IH.
    + apply lookup_ge_None in Hi'. pose proof (exec_length_le _ _ _ H).
      rewrite (lookup_ge_None_2 (attempts s) i) in IH by lia. done.
  - rewrite Htr, events_of_app, Hat. simpl.
    destruct (Nat.eqb_spec j i) as [->|Hne].
    + rewrite list_lookup_insert_eq by (by eapply lookup_lt_Some).
      rewrite Hj in IH. simpl in IH. by rewrite <- app_assoc.
    + rewrite list_lookup_insert_ne, app_nil_r by done. done.
Qed.

Lemma nil_silent t0 k s fn r :
  do k = Panics VNil -> reachable v cfg do t0 s -> (k, fn, r) ∉ trace s.
Proof.
  intros Hdo Hr Hin. apply events_of_elem in Hin.
  pose proof (calls_accounted_inv _ _ _ _ Hdo Hr) as Hacc.
  unfold calls_accounted in Hacc. rewrite HandleCrash_nil in Hacc.
  destruct (attempts s !! k) as [[|e|sc ret|ret]|] eqn:Hk;
    try (rewrite Hacc in Hin; by inversion Hin).
  - destruct (panics_phase _ _ _ _ _ Hdo Hr Hk) as [?|[(? & ? & _)|?]]; done.
  - apply app_eq_nil in Hacc as [Hacc _]. rewrite Hacc in Hin.
    by inversion Hin.
Qed.


Lemma spawn_inv s s' :
  exec v cfg do LSpawn s = Some s' -> driver s = DSpawn.
Proof. intros H. by exec_inv H. Qed.

Lemma closed_inv s s' :
  exec v cfg do LClosed s = Some s' -> start_closed s = true.
Proof. intros H. by exec_inv H. Qed.

(** After a nil panic no token is offered, nothing is launched and
    [start] is not seen closed. *)
Lemma nil_stalls t0 k s :
  do k = Panics VNil -> reachable v cfg do t0 s ->
  k < length (attempts s) ->
  (forall from, exec v cfg do (LRecv from) s = None)
  /\ exec v cfg do LSpawn s = None
  /\ exec v cfg do LClosed s = None.
Proof.
  intros Hdo Hr Hlt.
  destruct (nil_phase _ _ _ Hdo Hr Hlt) as (_ & Hc & a & Ha & Ht & Hsh).
  pose proof (sum_list_with_lookup held _ _ _ Ha) as Hge.
  unfold tokens in Ht.
  split; [|split].
  - intros from. destruct (exec v cfg do (LRecv from) s) as [s'|] eqn:E;
      [|done]. exfalso. destruct from as [|i].
    + destruct (recv_seeder_inv _ _ E) as [Hse _]. rewrite Hse in Ht. lia.
    + destruct (recv_handler_inv _ _ _ E) as (r & rest & ret & Hi & _).
      destruct (decide (i = k)) as [->|Hne].
      * rewrite Hi in Ha. simplify_eq. destruct Hsh as [?|[?|?]]; done.
      * pose proof (token_two_attempts _ _ _ _ _ _ Hr Hne Hi Ha) as H2.
        pose proof (sum_list_with_lookup held _ _ _ Hi) as Hgi.
        simpl in *. rewrite rearms_cons_rearm in *. lia.
  - destruct (exec v cfg do LSpawn s) as [s'|] eqn:E; [|done]. exfalso.
    apply spawn_inv in E. rewrite E in Ht. simpl in Ht. lia.
  - destruct (exec v cfg do LClosed s) as [s'|] eqn:E; [|done].
    apply closed_inv in E. congruence.
Qed.


(** *** Every launch but the first follows a re-arm *)

Lemma local_held i closed a a' :
  local cfg do i closed a a' -> held a = 0 -> held a' = 0.
Proof.
  intros Hloc Ha. inversion Hloc; subst; simpl in *; try done.
  destruct c as [[h|] r|r]; unfold rearms in *; simpl in *; done.
Qed.

Lemma older_idle t0 s i a :
  reachable v cfg do t0 s -> S i < length (attempts s) ->
  attempts s !! i = Some a -> held a = 0.
Proof.
  intros Hr. revert i a. revert s Hr.
  apply (reachable_ind_strong
           (fun s => forall i a, S i < length (attempts s) ->
                       attempts s !! i = Some a -> held a = 0)).
  { simpl. intros. lia. }
  intros l s s' Hr IH H i a' Hlt Hi'.
  destruct (exec_lookup _ _ _ _ _ H Hi')
    as [Hsame|[(_ & _ & ->)|(a & Ha & Hloc & _ & Hlen & _)]].
  - destruct (exec_length _ _ _ H) as [Heq|[[Heq _]|(_ & Hd & Heq & _)]].
    + rewrite Heq in Hlt. eauto.
    + rewrite Heq in Hlt. eauto.
    + pose proof (token_with_attempt _ _ _ _ Hr Hsame) as Ht.
      rewrite Hd in Ht. simpl in Ht. lia.
  - pose proof (exec_length _ _ _ H) as [Heq|[[Heq _]|(_ & _ & Heq & _)]];
      rewrite Heq in Hlt; rewrite ?length_app in Hlt; simpl in Hlt; lia.
  - eapply local_held; [done|]. apply (IH i); [lia|done].
Qed.

Lemma calls_rearm sc r :
  (RearmStart, r) ∈ calls sc -> 0 < rearms sc.
Proof.
  induction sc as [|[[h|] r'|r'] sc IH]; simpl; unfold rearms in *; simpl.
  - intros H. inversion H.
  - rewrite elem_of_cons. intros [?|?]; [done|auto].
  - lia.
  - auto.
Qed.

Lemma rearmed t0 s i r :
  do i = Panics r -> r <> VNil -> reachable v cfg do t0 s ->
  S i < length (attempts s) -> (i, RearmStart, r) ∈ trace s.
Proof.
  intros Hdo Hnn Hr Hlt.
  destruct (attempts s !! i) as [a|] eqn:Hi;
    [|apply lookup_ge_None in Hi; lia].
  pose proof (older_idle _ _ _ _ Hr Hlt Hi) as Hidle.
  pose proof (calls_accounted_inv _ _ _ _ Hdo Hr) as Hacc.
  unfold calls_accounted in Hacc. rewrite Hi in Hacc.
  apply events_of_elem.
  assert ((RearmStart, r) ∈ calls (HandleCrash cfg [RearmStart] r)) as Hin.
  { rewrite HandleCrash_fault, !calls_app, calls_range_call by done.
    simpl. rewrite !elem_of_app. right; left. }
  destruct a as [|e|sc ret|ret]; simpl in Hidle; try done.
  - rewrite <- Hacc in Hin. apply elem_of_app in Hin as [?|Hin]; [done|].
    apply calls_rearm in Hin. lia.
  - by rewrite Hacc.
Qed.


(** After a nil panic the [range] loops stay at their receive. *)
Lemma nil_blocks_range_loop t0 k s :
  v <> VSelect -> do k = Panics VNil -> reachable v cfg do t0 s ->
  k < length (attempts s) -> driver s = DRecv.
Proof.
  intros Hv Hdo. revert s.
  apply (reachable_ind_strong
           (fun s => k < length (attempts s) -> driver s = DRecv)).
  { simpl. lia. }
  intros l s s' Hr IH H Hlt.
  destruct (decide (k < length (attempts s))) as [Hk|Hk].
  - specialize (IH Hk).
    destruct (nil_stalls _ _ _ Hdo Hr Hk) as (Hrecv & Hspawn & Hclosed).
    destruct l as [why| |from| | | |i]; try congruence.
    + exec_inv H; by norm.
    + exec_inv H; by destruct v.
    + exec_inv H; congruence.
    + exec_inv H; by norm.
  - destruct (exec_length _ _ _ H) as [Heq|[[Heq _]|(-> & _ & _ & _)]];
      [rewrite Heq in Hlt; lia|rewrite Heq in Hlt; lia|].
    exec_inv H; by norm.
Qed.


End Steps.
End LoopFacts.

(** ** The collaborator *)

Module TombFacts.
Import Tomb.

(** Returning nil never gives the group a non-nil reason. *)
Lemma kill_nil t t' :
  kill ErrNil t = Some t' -> reason t' = reason t \/ reason t' = ErrNil.
Proof.
  unfold kill. destruct (reason t) eqn:Hr; intros; simplify_eq; simpl; auto.
Qed.

Lemma run_exit_nil t t' :
  run_exit ErrNil t = Some t' ->
  reason t' = reason t \/ reason t' = ErrNil.
Proof.
  unfold run_exit. change (negb (err_is_nil ErrNil)) with false.
  rewrite orb_false_r. intros H.
  destruct (_ =? 0)%Z; [|by simplify_eq; left].
  destruct (kill ErrNil _) as [t2|] eqn:Hk; [|done].
  apply kill_nil in Hk. destruct (dead t2); by simplify_eq.
Qed.



End TombFacts.

(** ** The default handler *)

Module LogFacts.
Import Crash.

Lemma size_value : size = 64 * 1024.
Proof. reflexivity. Qed.

Lemma take_written {A} (tr buf : list A) :
  let n := Nat.min (length buf) (length tr) in
  take n (take n tr ++ drop n buf) = take (length buf) tr.
Proof.
  intros n. rewrite take_app_le by (rewrite length_take; lia).
  rewrite take_take. subst n.
  destruct (Nat.le_ge_cases (length buf) (length tr)).
  - by rewrite !Nat.min_l by lia.
  - rewrite Nat.min_id, Nat.min_r by lia. by rewrite !take_ge by lia.
Qed.

Lemma captured_stack_eq lib :
  captured_stack lib = take size (current_stack lib).
Proof.
  unfold captured_stack, runtime_Stack.
  rewrite take_written. by rewrite repeat_length.
Qed.

Lemma captured_stack_bounded lib : length (captured_stack lib) <= size.
Proof. rewrite captured_stack_eq, length_take. lia. Qed.

End LogFacts.

(** ** The entry points *)

Module EntryFacts.
Import Crash Loop Entry LoopFacts.

Section Worlds.
Variables (cfg : Config) (do : work).

Lemma wrun_app wls1 wls2 w :
  wrun cfg do (wls1 ++ wls2) w = wrun cfg do wls1 w ≫= wrun cfg do wls2.
Proof.
  revert w. induction wls1 as [|wl wls1 IH]; intros w; simpl; [done|].
  destruct (wexec cfg do wl w); simpl; auto.
Qed.

Lemma loop_moves_map ls : loop_moves (map WLoop ls) = ls.
Proof. induction ls as [|l ls IH]; simpl; [done|]. by rewrite IH. Qed.

Lemma exec_not_crashed v l s s' :
  exec v cfg do l s = Some s' -> crashed s = false.
Proof. unfold exec. by destruct (crashed s). Qed.

(** The moves of the loop are the same on whichever goroutine it runs. *)
Lemma wrun_loop v g ls s s' :
  run v cfg do ls s = Some s' ->
  wrun cfg do (map WLoop ls) {| gs := g; sup := Some (v, s) |}
  = Some {| gs := g; sup := Some (v, s') |}.
Proof.
  revert s. induction ls as [|l ls IH]; intros s H; simpl in *.
  - by simplify_eq.
  - destruct (exec v cfg do l s) as [s1|] eqn:He; [|done].
    unfold wexec, process_ended. simpl.
    rewrite (exec_not_crashed v l s s1 He), He. by apply IH.
Qed.

Lemma via_Go_step v ts ls wl w w' :
  via_Go cfg do v ts ls w -> wexec cfg do wl w = Some w' ->
  via_Go cfg do v ts (ls ++ loop_moves [wl]) w'.
Proof.
  unfold wexec, process_ended, own_step.
  intros [[-> [-> | [-> | ->]]]|(s & Hs & [-> | [Hd ->]])] H; simpl in H.
  - destruct wl as [[|g]|l]; [|done..]. simplify_eq/=.
    left. split; [done|]. right; by left.
  - destruct wl as [[|g]|l]; [|done..]. simplify_eq/=.
    left. split; [done|]. right; by right.
  - destruct wl as [[|[|g]]|l]; try done. simplify_eq/=.
    right. exists (init ts). split; [done|]. by left.
  - destruct (crashed s) eqn:Hcr; [done|].
    destruct wl as [[|[|g]]|l]; try done.
    + simpl in H. destruct (driver s) eqn:Hd; try done. simplify_eq/=.
      right. exists s. rewrite app_nil_r. split; [done|]. by right.
    + destruct (exec v cfg do l s) as [s1|] eqn:He; [|done]. simplify_eq/=.
      right. exists s1. split; [|by left].
      apply run_snoc. eauto.
  - destruct (crashed s) eqn:Hcr; [done|].
    destruct wl as [[|[|g]]|l]; try done.
    destruct (exec v cfg do l s) as [s1|] eqn:He; [|done]. simplify_eq/=.
    right. exists s1. split; [apply run_snoc; eauto|]. right. split; [|done].
    by destruct (exec_driver_done v cfg do _ _ _ He Hd) as [[? _]|[? _]].
Qed.

Lemma via_BlockingGo_step v ts ls wl w w' :
  via_BlockingGo cfg do v ts ls w -> wexec cfg do wl w = Some w' ->
  via_BlockingGo cfg do v ts (ls ++ loop_moves [wl]) w'.
Proof.
  unfold wexec, process_ended, own_step.
  intros [[-> ->]|(s & Hs & [-> | [Hd ->]])] H; simpl in H.
  - destruct wl as [[|g]|l]; [|done..]. simplify_eq/=.
    right. exists (init ts). split; [done|]. by left.
  - destruct (crashed s) eqn:Hcr; [done|].
    destruct wl as [[|g]|l]; try done.
    + simpl in H. destruct (driver s) eqn:Hd; try done. simplify_eq/=.
      right. exists s. rewrite app_nil_r. split; [done|]. by right.
    + destruct (exec v cfg do l s) as [s1|] eqn:He; [|done]. simplify_eq/=.
      right. exists s1. split; [|by left].
      apply run_snoc. eauto.
  - destruct (crashed s) eqn:Hcr; [done|].
    destruct wl as [[|g]|l]; try done.
    destruct (exec v cfg do l s) as [s1|] eqn:He; [|done]. simplify_eq/=.
    right. exists s1. split; [apply run_snoc; eauto|]. right. split; [|done].
    by destruct (exec_driver_done v cfg do _ _ _ He Hd) as [[? _]|[? _]].
Qed.

Lemma loop_moves_cons wl wls :
  loop_moves (wl :: wls) = loop_moves [wl] ++ loop_moves wls.
Proof. by destruct wl. Qed.

Lemma via_Go_run v ts wls : forall ls w w',
  via_Go cfg do v ts ls w -> wrun cfg do wls w = Some w' ->
  via_Go cfg do v ts (ls ++ loop_moves wls) w'.
Proof.
  induction wls as [|wl wls IH]; intros ls w w' Hw H.
  - simpl in *. simplify_eq. by rewrite app_nil_r.
  - change (wrun cfg do (wl :: wls) w)
      with (match wexec cfg do wl w with
            | Some w1 => wrun cfg do wls w1
            | None => None
            end) in H.
    destruct (wexec cfg do wl w) as [w1|] eqn:He; [|done].
    rewrite loop_moves_cons, app_assoc.
    apply (IH _ w1); [|done]. by apply (via_Go_step v ts ls wl w).
Qed.

Lemma via_BlockingGo_run v ts wls : forall ls w w',
  via_BlockingGo cfg do v ts ls w -> wrun cfg do wls w = Some w' ->
  via_BlockingGo cfg do v ts (ls ++ loop_moves wls) w'.
Proof.
  induction wls as [|wl wls IH]; intros ls w w' Hw H.
  - simpl in *. simplify_eq. by rewrite app_nil_r.
  - change (wrun cfg do (wl :: wls) w)
      with (match wexec cfg do wl w with
            | Some w1 => wrun cfg do wls w1
            | None => None
            end) in H.
    destruct (wexec cfg do wl w) as [w1|] eqn:He; [|done].
    rewrite loop_moves_cons, app_assoc.
    apply (IH _ w1); [|done]. by apply (via_BlockingGo_step v ts ls wl w).
Qed.

(** Every world of a call of [Go], and of a call of [BlockingGo]. *)
Lemma Go_worlds v ts wls w :
  wrun cfg do wls (program (FGo v) ts) = Some w ->
  via_Go cfg do v ts (loop_moves wls) w.
Proof.
  intros H. apply (via_Go_run v ts wls [] (program (FGo v) ts)); [|done].
  left. split; [done|]. by left.
Qed.

Lemma BlockingGo_worlds v ts wls w :
  wrun cfg do wls (program (FBlockingGo v) ts) = Some w ->
  via_BlockingGo cfg do v ts (loop_moves wls) w.
Proof.
  intros H.
  apply (via_BlockingGo_run v ts wls [] (program (FBlockingGo v) ts));
    [|done].
  by left.
Qed.

(** The first launch of the loop. *)
Lemma first_launch v ts :
  (v = VTomb -> Tomb.dead ts = false /\ Tomb.dying ts = false) ->
  exists s,
    run v cfg do (LRecv Seeder :: match v with
                                  | VSelect => [LSpawn]
                                  | _ => [LCheck; LSpawn]
                                  end) (init ts) = Some s
    /\ attempts s = [ARun].
Proof.
  intros Hts. destruct v.
  - eexists. split; [reflexivity|done].
  - eexists. split; [reflexivity|done].
  - destruct (Hts eq_refl) as [Hde Hdy].
    exists (set_driver DRecv
              (set_tomb (Tomb.Build_mockTomb
                           (Tomb.int_wrap (Tomb.alive ts + 1)) (Tomb.dying ts)
                           (Tomb.dead ts) (Tomb.reason ts))
                 (set_attempts [ARun]
                    (set_driver DSpawn
                       (set_driver DCheck (set_seeder false (init ts))))))).
    split; [|done].
    simpl. unfold recv_step, signaled. simpl. rewrite Hdy.
    unfold exec, spawn_step, Tomb.Go. simpl. by rewrite Hde, ?Hdy.
Qed.

End Worlds.
End EntryFacts.


(** ** More on the loops *)

Module LoopMore.
Import Crash Loop LoopView CrashFacts LoopFacts.

#[local] Instance dpc_eq_dec : EqDecision dpc.
Proof. solve_decision. Defined.

Lemma all_finished (l : list apc) :
  (forall a, a ∈ l -> finished a = true) ->
  length (List.filter finished l) = length l.
Proof.
  induction l as [|a l IH]; intros Hall; simpl; [done|].
  rewrite (Hall a) by left. simpl. rewrite IH; [done|].
  intros b Hb. apply Hall. by right.
Qed.

Section Steps.
Variables (v : variant) (cfg : Config) (do : work).

Lemma aclose_returns t0 s i e :
  reachable v cfg do t0 s -> attempts s !! i = Some (AClose e) ->
  do i = Returns e.
Proof.
  intros Hr. revert i e. revert s Hr.
  apply (reachable_ind v cfg do
           (fun s => forall i e, attempts s !! i = Some (AClose e) ->
                       do i = Returns e)).
  { intros i e Hi. simpl in Hi. by rewrite lookup_nil in Hi. }
  intros l s s' IH H i e Hi.
  destruct (exec_lookup v cfg do _ _ _ _ _ H Hi)
    as [Hsame|[(_ & ? & _)|(a & Ha & Hloc & _)]]; [eauto|done|].
  by inversion Hloc.
Qed.

Lemma closed_by_return t0 s :
  reachable v cfg do t0 s -> start_closed s = true ->
  exists k e, do k = Returns e /\ k < length (attempts s).
Proof.
  revert s.
  apply (reachable_ind_strong v cfg do
           (fun s => start_closed s = true ->
              exists k e, do k = Returns e /\ k < length (attempts s))).
  { done. }
  intros l s s' Hr IH H Hc.
  pose proof (exec_length_le v cfg do _ _ _ H) as Hle.
  destruct (exec_start_closed v cfg do _ _ _ H)
    as [Heq|(i & e & _ & Hi & _ & _ & _)].
  - rewrite Heq in Hc. destruct (IH Hc) as (k & e & ? & ?).
    exists k, e. split; [done|lia].
  - exists i, e. split; [by apply (aclose_returns t0 s)|].
    apply lookup_lt_Some in Hi. lia.
Qed.

Lemma done_reason t0 s :
  reachable v cfg do t0 s -> driver s = DDone ->
  signaled v s = true \/ start_closed s = true.
Proof.
  revert s.
  apply (reachable_ind v cfg do
           (fun s => driver s = DDone ->
                     signaled v s = true \/ start_closed s = true)).
  { done. }
  intros l s s' IH H Hd.
  destruct (decide (driver s = DDone)) as [Hds|Hds].
  - destruct (IH Hds) as [Hs|Hc].
    + left. by apply (exec_signaled v cfg do l s).
    + right. by apply (exec_closed_mono v cfg do l s).
  - clear IH. unfold signaled. revert H Hd. destruct v; intros H Hd;
      exec_inv H; simpl in *; try done; auto; try congruence;
      match goal with
      | Hx : (if ?b then _ else _) = DDone |- _ => destruct b eqn:?; auto; done
      end.
Qed.

(** Only the environment closes the stop channel or cancels the context. *)
Lemma exec_stop l s s' :
  exec v cfg do l s = Some s' -> is_cancel l = false -> stop s' = stop s.
Proof.
  intros H Hl. destruct v; exec_inv H; simpl in *; try done;
    repeat match goal with
      | |- context [match ?x with _ => _ end] => destruct x
      end; done.
Qed.

Lemma uncancelled t0 ls s :
  v <> VTomb -> Forall (fun l => is_cancel l = false) ls ->
  run v cfg do ls (init t0) = Some s -> signaled v s = false.
Proof.
  intros Hv HQ H.
  assert (stop s = false) as Hst.
  { apply (run_ind_labels v cfg do (fun l => is_cancel l = false)
             (fun s => stop s = false) t0) with (ls := ls); [done| |done..].
    intros l s1 s2 Hl _ IH He. by rewrite (exec_stop l s1 s2 He Hl). }
  unfold signaled. by destruct v.
Qed.

(** At the [select] with an attempt in its call, no token is on offer and
    [start] is open. *)
Lemma in_call_no_token t0 s i a :
  reachable v cfg do t0 s -> attempts s !! i = Some a -> in_call a ->
  (driver s = DRecv \/ driver s = DDone)
  /\ start_closed s = false
  /\ (forall from, recv_step v from s = None)
  /\ spawn_step v s = None.
Proof.
  intros Hr Hi Hin.
  assert (held a = 1) as Hh by (destruct Hin as [-> | [e ->]]; done).
  pose proof (token_with_attempt v cfg do t0 s i a Hr Hi) as Ht.
  assert (start_closed s = false) as Hc.
  { destruct (start_closed s) eqn:Hc; [|done].
    pose proof (closed_attempt_idle v cfg do t0 s i a Hr Hc Hi). lia. }
  assert (driver s = DRecv \/ driver s = DDone) as Hd
    by (destruct (driver s); simpl in Ht; auto; lia).
  split; [done|]. split; [done|]. split.
  - intros from. unfold recv_step. rewrite Hc.
    destruct (driver s); try done. destruct from as [|j].
    + destruct (seeder s); [lia|done].
    + destruct (attempts s !! j) as [[|e|[|[[h|] r|r] rest] ret|ret]|] eqn:Hj;
        try done.
      destruct (decide (j = i)) as [->|Hne].
      * rewrite Hi in Hj. simplify_eq. destruct Hin as [? | [e ?]]; done.
      * pose proof (token_two_attempts v cfg do t0 s j i _ _ Hr Hne Hj Hi)
          as H2.
        simpl in H2. unfold rearms in H2. simpl in H2. lia.
  - unfold spawn_step. by destruct Hd as [-> | ->].
Qed.

Lemma local_finished i closed a a' :
  local cfg do i closed a a' -> finished a' = true.
Proof. by inversion 1. Qed.

Lemma range_done_idle t0 s :
  v <> VSelect -> reachable v cfg do t0 s -> driver s = DDone ->
  forall i a, attempts s !! i = Some a -> finished a = true.
Proof.
  intros Hv. revert s.
  apply (reachable_ind_strong v cfg do
           (fun s => driver s = DDone ->
              forall i a, attempts s !! i = Some a -> finished a = true)).
  { done. }
  intros l s s' Hr IH H Hd i a' Hi'.
  destruct (exec_lookup v cfg do _ _ _ _ _ H Hi')
    as [Hsame|[(-> & _ & _)|(a & Ha & Hloc & _)]].
  - destruct (decide (driver s = DDone)) as [Hds|Hds]; [by apply (IH Hds i)|].
    pose proof (token_with_attempt v cfg do _ _ _ _ Hr Hsame) as Ht.
    pose proof (fun Hc => closed_attempt_idle v cfg do _ _ _ _ Hr Hc Hsame)
      as Hidle.
    assert (held a' = 0 -> finished a' = true) as Hfin by (by destruct a').
    revert Hv H Hd Ht. destruct v; intros Hv H Hd Ht; [done| |];
      exec_inv H; simpl in *; try done; try congruence;
      try (apply Hfin; apply Hidle; congruence);
      try (apply Hfin; rewrite ?Heqd in Ht; simpl in Ht; lia).
  - exec_inv H; simpl in *; congruence.
  - by eapply local_finished.
Qed.

Lemma run_cancelled_le ls s s' :
  v <> VSelect -> run v cfg do ls s = Some s' -> signaled v s = true ->
  length (attempts s') <= S (length (attempts s)).
Proof.
  intros Hv. revert s. induction ls as [|l ls IH]; intros s H Hs; simpl in H.
  - simplify_eq. lia.
  - destruct (exec v cfg do l s) as [s1|] eqn:E; [|done].
    destruct (decide (driver s = DSpawn)) as [Hd|Hd].
    + pose proof (exec_signaled v cfg do _ _ _ E Hs) as Hs1.
      destruct (exec_length v cfg do _ _ _ E)
        as [Heq|[[Heq _]|(-> & _ & Heq & _)]].
      * rewrite <- Heq. by apply IH.
      * rewrite <- Heq. by apply IH.
      * assert (driver s1 <> DSpawn) as Hd1.
        { exec_inv E; simpl in *; try done.
          apply (f_equal length) in Heq. rewrite length_app in Heq.
          simpl in Heq. lia. }
        destruct (run_cancelled v cfg do ls s1 s' Hv H Hs1 Hd1) as (_ & _ & ->).
        rewrite Heq, length_app. simpl. lia.
    + assert (run v cfg do (l :: ls) s = Some s') as Hrun
        by (simpl; by rewrite E).
      destruct (run_cancelled v cfg do _ s s' Hv Hrun Hs Hd) as (_ & _ & ->).
      lia.
Qed.

Lemma blocked_exec l s s' i r rest ret :
  exec v cfg do l s = Some s' -> driver s = DDone ->
  attempts s !! i = Some (ADefer (Call RearmStart r :: rest) ret) ->
  attempts s' !! i = Some (ADefer (Call RearmStart r :: rest) ret).
Proof.
  intros H Hd Hi. exec_inv H; norm; try done;
    try (by apply lookup_app_l_Some);
    match goal with
    | Hj : attempts ?s0 !! ?j = Some _ |- _ =>
        destruct (decide (j = i)) as [->|Hne];
        [congruence|by rewrite list_lookup_insert_ne]
    end.
Qed.

Lemma rearm_needs_receiver l s s' j r0 :
  exec v cfg do l s = Some s' -> driver s = DDone ->
  trace s' <> trace s ++ [(j, RearmStart, r0)].
Proof.
  intros H Hd Htr. exec_inv H; simpl in *; try congruence;
    try (apply app_inv_head in Htr; congruence);
    try (apply (f_equal length) in Htr; rewrite length_app in Htr;
         simpl in Htr; lia).
Qed.

Lemma blocks_phase t0 s k a :
  do k = Blocks -> reachable v cfg do t0 s -> attempts s !! k = Some a ->
  a = ARun.
Proof.
  intros Hdo Hr. revert a. revert s Hr.
  apply (reachable_ind v cfg do
           (fun s => forall a, attempts s !! k = Some a -> a = ARun)).
  { intros a Ha. simpl in Ha. by rewrite lookup_nil in Ha. }
  intros l s s' IH H a' Hk'.
  destruct (exec_lookup v cfg do _ _ _ _ _ H Hk')
    as [Hsame|[(_ & -> & _)|(a & Ha & Hloc & _)]]; [eauto|done|].
  rewrite (IH _ Ha) in Hloc. inversion Hloc; congruence.
Qed.

Lemma quiet_phase t0 s k c rest ret :
  quiet_at do k -> reachable v cfg do t0 s ->
  attempts s !! k <> Some (ADefer (c :: rest) ret).
Proof.
  intros Hq Hr Hk.
  destruct (do k) as [e|r|] eqn:Hdo.
  - destruct (returns_phase v cfg do t0 k e s Hdo Hr (lookup_lt_Some _ _ _ Hk))
      as [_ [[[?|?] _]|[[?|?] _]]]; congruence.
  - by destruct (Hq r).
  - by pose proof (blocks_phase t0 s k _ Hdo Hr Hk).
Qed.

End Steps.
End LoopMore.

(** * The claims *)

Import Crash Loop Entry Samples.
Import LoopView CrashFacts LoopFacts LoopMore TombFacts LogFacts EntryFacts.

(** ** C1: restarts after contained faults *)

(** A unit of work that panics with the nil value at every call is a unit
    of work that always faults, and with the stop channel never closed (or
    closed) the loop launches it once and never again. *)
Lemma nil_fault_is_not_restarted :
  (forall k, exists r, panics_nil k = Panics r)
  /\ (forall ls s,
        run VSelect default_config panics_nil ls (init Tomb.fresh) = Some s ->
        length (attempts s) <= 1)
  /\ ~ (forall n, exists ls s,
          Forall (fun l => is_cancel l = false) ls
          /\ run VSelect default_config panics_nil ls (init Tomb.fresh) = Some s
          /\ n <= length (attempts s)).
Proof.
  assert (forall ls s,
            run VSelect default_config panics_nil ls (init Tomb.fresh) = Some s ->
            length (attempts s) <= 1) as Hone.
  { intros ls s H.
    destruct (decide (0 < length (attempts s))) as [Hlt|]; [|lia].
    destruct (nil_phase VSelect default_config panics_nil Tomb.fresh 0 s)
      as [Hlen _]; [done|by exists ls|done|lia]. }
  split; [intros k; by eexists|]. split; [done|].
  intros Hgrow. destruct (Hgrow 2) as (ls & s & _ & H & Hn).
  specialize (Hone ls s H). lia.
Qed.

(** C1 (amended): for the loops over a stop channel and over a context,
    with the re-raise flag off, a unit of work whose every call panics with
    a non-nil value, and a schedule in which cancellation is never
    signaled: the loop has not returned and the process has not crashed,
    some move of the program is enabled, every attempt but the last has
    pushed its token back on [start] with the value it panicked with, and
    the schedule is at most [(h + 8) * n + 4] moves long, where [n] is the
    number of attempts launched and [h] the length of the registry; so the
    number of attempts grows without bound along every run. *)
Theorem contained_faults_restart_without_bound
    (v : variant) (cfg : Config) (do : work) (t0 : Tomb.mockTomb)
    (ls : list label) (s : state) :
  v <> VTomb ->
  ReallyCrash cfg = false ->
  (forall k, exists r, do k = Panics r /\ r <> VNil) ->
  Forall (fun l => is_cancel l = false) ls ->
  run v cfg do ls (init t0) = Some s ->
  driver s <> DDone /\ crashed s = false
  /\ (exists l s', is_cancel l = false /\ exec v cfg do l s = Some s')
  /\ (forall i, S i < length (attempts s) ->
        exists r, do i = Panics r /\ (i, RearmStart, r) ∈ trace s)
  /\ length ls <= (length (PanicHandlers cfg) + 8) * length (attempts s) + 4.
Proof.
  intros Hv Hrc Hf Hls H.
  assert (reachable v cfg do t0 s) as Hr by (by exists ls).
  pose proof (faulting_in_service v cfg do t0 ls s Hv Hrc Hf Hls H) as Hin.
  pose proof Hin as (Hst & Hc & Hcr & Hd & Ht).
  split; [done|]. split; [done|]. split; [|split].
  - by apply (faulting_progress v cfg do t0).
  - intros i Hi. destruct (Hf i) as (r & Hdo & Hnn). exists r.
    split; [done|]. by apply (rearmed v cfg do t0).
  - rewrite <- (moves_all ls Hls). by apply (moves_bounded v cfg do t0).
Qed.

Lemma contained_faults_restart_without_bound_witness :
  exists s,
    run VContext default_config always_panics
      [LRecv Seeder; LCheck; LSpawn; LAttempt 0; LAttempt 0;
       LRecv (Handler 0); LCheck; LSpawn; LAttempt 0; LAttempt 1]
      (init Tomb.fresh) = Some s
    /\ length (attempts s) = 2
    /\ driver s <> DDone /\ crashed s = false
    /\ (exists l s', is_cancel l = false
                     /\ exec VContext default_config always_panics l s = Some s')
    /\ (forall i, S i < length (attempts s) ->
          exists r, always_panics i = Panics r /\ (i, RearmStart, r) ∈ trace s)
    /\ 10 <= (length (PanicHandlers default_config) + 8) * length (attempts s) + 4.
Proof.
  eexists. split; [vm_compute; reflexivity|]. split; [reflexivity|].
  apply (contained_faults_restart_without_bound
           VContext default_config always_panics Tomb.fresh
           [LRecv Seeder; LCheck; LSpawn; LAttempt 0; LAttempt 0;
            LRecv (Handler 0); LCheck; LSpawn; LAttempt 0; LAttempt 1]).
  - discriminate.
  - reflexivity.
  - intros k. eexists. split; [reflexivity|discriminate].
  - repeat constructor.
  - vm_compute. reflexivity.
Defined.

(** ** C2: normal completion *)

(** C2: for each of the three loops, once the attempt whose call of the work
    returns (the [k+1]-th, counting from one) has been launched, it is the
    last one: exactly [k+1] attempts have been launched, here and in every
    later state; [start] is closed from the moment this attempt has run its
    [close(start)] and stays closed; with [start] closed every launched
    attempt has finished its call of the work, and the loop, if it has not
    returned yet, returns by seeing [start] closed; until it returns some
    move of the program is enabled, and a schedule makes at most
    [(h + 8) * (k + 1) + 4] moves of the program, so the blocking call
    returns. *)
Theorem normal_completion_ends_supervision
    (v : variant) (cfg : Config) (do : work) (t0 : Tomb.mockTomb)
    (ls : list label) (s : state) (k : nat) (e : error) :
  run v cfg do ls (init t0) = Some s ->
  do k = Returns e ->
  k < length (attempts s) ->
  returning k e s
  /\ (forall ls' s', run v cfg do ls' s = Some s' ->
        length (attempts s') = S k
        /\ (start_closed s = true -> start_closed s' = true))
  /\ (start_closed s = true ->
        calls_finished s = S k
        /\ (crashed s = false -> driver s <> DDone ->
              exec v cfg do LClosed s = Some (set_driver DDone s)))
  /\ (crashed s = false -> driver s <> DDone ->
        exists l s', is_cancel l = false /\ exec v cfg do l s = Some s')
  /\ moves ls <= (length (PanicHandlers cfg) + 8) * S k + 4.
Proof.
  intros H Hdo Hlt.
  assert (reachable v cfg do t0 s) as Hr by (by exists ls).
  pose proof (returns_phase v cfg do t0 k e s Hdo Hr Hlt) as Hret.
  split; [done|]. split; [|split; [|split]].
  - intros ls' s' H'. split.
    + assert (reachable v cfg do t0 s') as Hr' by (by eapply reachable_run).
      apply (returns_phase v cfg do t0 k e s' Hdo Hr').
      enough (length (attempts s) <= length (attempts s')) by lia.
      revert H'. apply (run_ind v cfg do
                          (fun s1 => length (attempts s) <= length (attempts s1)));
        [done|].
      intros l s1 s2 IH Hx. pose proof (exec_length_le v cfg do _ _ _ Hx). lia.
    + by apply (run_closed_mono v cfg do ls').
  - intros Hc. split.
    + rewrite (closed_calls_finished v cfg do t0 s Hr Hc). by destruct Hret.
    + by apply (closed_returns v cfg do t0).
  - by apply (returning_progress v cfg do t0 k e).
  - pose proof (moves_bounded v cfg do t0 ls s H) as Hm.
    destruct Hret as [Hlen _]. by rewrite Hlen in Hm.
Qed.

Lemma normal_completion_ends_supervision_witness :
  exists s,
    run VSelect default_config (succeeds_at 1)
      [LRecv Seeder; LSpawn; LAttempt 0; LAttempt 0; LRecv (Handler 0);
       LSpawn; LAttempt 0; LAttempt 1; LAttempt 1]
      (init Tomb.fresh) = Some s
    /\ start_closed s = true
    /\ returning 1 ErrNil s
    /\ (forall ls' s',
          run VSelect default_config (succeeds_at 1) ls' s = Some s' ->
          length (attempts s') = 2
          /\ (start_closed s = true -> start_closed s' = true))
    /\ (start_closed s = true ->
          calls_finished s = 2
          /\ (crashed s = false -> driver s <> DDone ->
                exec VSelect default_config (succeeds_at 1) LClosed s
                = Some (set_driver DDone s)))
    /\ (crashed s = false -> driver s <> DDone ->
          exists l s', is_cancel l = false
            /\ exec VSelect default_config (succeeds_at 1) l s = Some s')
    /\ 9 <= (length (PanicHandlers default_config) + 8) * 2 + 4.
Proof.
  eexists. split; [vm_compute; reflexivity|]. split; [reflexivity|].
  apply (normal_completion_ends_supervision
           VSelect default_config (succeeds_at 1) Tomb.fresh
           [LRecv Seeder; LSpawn; LAttempt 0; LAttempt 0; LRecv (Handler 0);
            LSpawn; LAttempt 0; LAttempt 1; LAttempt 1]).
  - vm_compute. reflexivity.
  - reflexivity.
  - simpl. lia.
Defined.

(** ** C3: cancellation *)

(** The [select] of the loop over a stop channel has no priority: with the
    stop channel closed and the first attempt's token pending on [start] at
    the same time, it may take the token, and a second attempt is launched
    although cancellation had been signaled before.  (The test of the stop
    channel, which closes it in the third call of the work, expects three
    calls; under this choice there are more.) *)
Lemma restart_can_win_over_cancellation :
  exists s1 s2,
    run VSelect default_config always_panics
      [LRecv Seeder; LSpawn; LAttempt 0; LAttempt 0; LCancel ErrNil]
      (init Tomb.fresh) = Some s1
    /\ stop s1 = true /\ driver s1 = DRecv
    /\ attempts s1 = [ADefer [Call RearmStart (VString "panicked")] ErrNil]
    /\ run VSelect default_config always_panics
         [LRecv (Handler 0); LSpawn] s1 = Some s2
    /\ stop s2 = true /\ length (attempts s2) = 2.
Proof. do 2 eexists. vm_compute. repeat split. Qed.

(** C3 as stated fails in the loop over a context: with the context
    cancelled while an attempt is inside a call of the work that does not
    end, the loop waits at its receive with no move to make, and under
    every schedule from there the blocking call has not returned. *)
Lemma context_loop_waits_for_the_attempt :
  exists s,
    run VContext default_config hangs
      [LRecv Seeder; LCheck; LSpawn; LCancel ErrNil] (init Tomb.fresh) = Some s
    /\ stop s = true /\ driver s = DRecv /\ attempts s = [ARun]
    /\ (forall l, is_cancel l = false ->
          exec VContext default_config hangs l s = None)
    /\ forall ls s', run VContext default_config hangs ls s = Some s' ->
         driver s' = DRecv /\ attempts s' = [ARun].
Proof.
  eexists. split; [vm_compute; reflexivity|]. do 3 (split; [reflexivity|]).
  split.
  { intros [why| |[|i]| | | |[|i]] Hl; try done; by destruct i. }
  intros ls s' H.
  match type of H with
  | run _ _ _ _ ?s0 = _ =>
      assert (reachable VContext default_config hangs Tomb.fresh s0) as Hr
        by (exists [LRecv Seeder; LCheck; LSpawn; LCancel ErrNil];
            vm_compute; reflexivity)
  end.
  pose proof (reachable_run _ _ _ _ _ _ _ Hr H) as Hr'.
  destruct (run_cancelled VContext default_config hangs ls _ s'
              ltac:(done) H eq_refl ltac:(done)) as (_ & Hsp & Hlen).
  simpl in Hlen.
  destruct (attempts s') as [|a [|b l]] eqn:Ha; try done.
  assert (a = ARun) as ->.
  { apply (blocks_phase VContext default_config hangs Tomb.fresh s' 0);
      [done|done|by rewrite Ha]. }
  split; [|done].
  pose proof (token_with_attempt VContext default_config hangs Tomb.fresh
                s' 0 ARun Hr') as Ht.
  rewrite Ha in Ht. specialize (Ht eq_refl).
  destruct (driver s') eqn:Hd; simpl in Ht; try done; try lia.
  by pose proof (range_done_idle VContext default_config hangs Tomb.fresh s'
                   ltac:(done) Hr' Hd 0 ARun ltac:(by rewrite Ha)).
Qed.

(** C3 (amended): in the loop over a stop channel, when the stop channel is
    closed while an attempt is inside its call of the work, no token is on
    offer and no launch is due, so the cancellation case is the only one the
    [select] can take: the call returns at once, without waiting for the
    attempt, if it has not returned already.  In the loop over a context
    and in the loop over a tomb the call does not return while an attempt
    is inside its call of the work; from a state in which cancellation is
    signaled and the loop is not past its poll of the cancellation source,
    no attempt is ever launched, and a token received with cancellation
    signaled always loses: the call returns at the poll.  In every loop,
    once the call has returned no attempt is launched. *)
Theorem cancellation_stops_relaunching
    (v : variant) (cfg : Config) (do : work) (s : state) :
  crashed s = false ->
  (v = VSelect -> stop s = true ->
     forall t0 i, reachable v cfg do t0 s -> attempts s !! i = Some ARun ->
       (driver s = DDone
        \/ exec v cfg do LStop s = Some (set_driver DDone s))
       /\ (forall from, exec v cfg do (LRecv from) s = None)
       /\ exec v cfg do LSpawn s = None
       /\ exec v cfg do LClosed s = None)
  /\ (driver s = DDone ->
        forall ls s', run v cfg do ls s = Some s' ->
          driver s' = DDone /\ length (attempts s') = length (attempts s))
  /\ (v <> VSelect -> signaled v s = true -> driver s <> DSpawn ->
        forall ls s', run v cfg do ls s = Some s' ->
          signaled v s' = true /\ driver s' <> DSpawn
          /\ length (attempts s') = length (attempts s))
  /\ (v <> VSelect -> signaled v s = true -> driver s = DCheck ->
        exec v cfg do LCheck s = Some (set_driver DDone s))
  /\ (v <> VSelect ->
        forall t0 i, reachable v cfg do t0 s ->
          attempts s !! i = Some ARun -> driver s <> DDone).
Proof.
  intros Hcr. split; [|split; [|split; [|split]]].
  - intros -> Hst t0 i Hr Hi.
    destruct (in_call_no_token VSelect cfg do t0 s i ARun Hr Hi)
      as (Hd & Hc & Hrecv & Hsp); [by left|].
    unfold exec. rewrite Hcr, Hc, Hst. split; [|split; [done|split; [done|]]].
    + destruct Hd as [-> | ->]; auto.
    + by destruct (driver s).
  - intros Hd ls s' H. by apply (run_driver_done v cfg do ls s).
  - intros Hv Hs Hd ls s' H. by apply (run_cancelled v cfg do ls s).
  - intros Hv Hs Hd. unfold exec. by rewrite Hcr, Hd, Hs.
  - intros Hv t0 i Hr Hi Hd.
    by pose proof (range_done_idle v cfg do t0 s Hv Hr Hd i ARun Hi).
Qed.

Lemma cancellation_stops_relaunching_witness :
  exists s,
    run VSelect default_config always_panics
      [LRecv Seeder; LSpawn; LCancel ErrNil] (init Tomb.fresh) = Some s
    /\ stop s = true /\ attempts s = [ARun] /\ driver s = DRecv
    /\ exec VSelect default_config always_panics LStop s
       = Some (set_driver DDone s)
    /\ (forall from,
          exec VSelect default_config always_panics (LRecv from) s = None)
    /\ exec VSelect default_config always_panics LSpawn s = None
    /\ exec VSelect default_config always_panics LClosed s = None.
Proof.
  eexists. split; [vm_compute; reflexivity|]. do 3 (split; [reflexivity|]).
  match goal with
  | |- exec _ _ _ _ ?s = _ /\ _ =>
      destruct (cancellation_stops_relaunching
                  VSelect default_config always_panics s eq_refl)
        as [H _]
  end.
  destruct (H eq_refl eq_refl Tomb.fresh 0) as ([Hd|Hstop] & Hrest).
  - exists [LRecv Seeder; LSpawn; LCancel ErrNil]. vm_compute. reflexivity.
  - reflexivity.
  - discriminate Hd.
  - split; [exact Hstop|exact Hrest].
Defined.

(** ** C4: a failure indicator in the tomb variant *)



(** ** C5: the handlers of a contained fault *)

(** C5: on a fault with payload [r], [HandleCrash] calls the handlers of the
    registry in their order and then the additional handlers in theirs,
    each with [r]; when the work returns normally ([recover] gives nil) it
    calls none.  In a running loop the calls an attempt has made are at
    every moment a prefix of these calls, and all of them once its closure
    has returned. *)
Theorem handlers_run_in_order
    (cfg : Config) (additionalHandlers : list func) (r : value) :
  r <> VNil ->
  calls (HandleCrash cfg additionalHandlers r)
  = map (fun h => (Global h, r)) (PanicHandlers cfg)
    ++ map (fun fn => (fn, r)) additionalHandlers
  /\ (forall i h, PanicHandlers cfg !! i = Some h ->
        HandleCrash cfg additionalHandlers r !! i = Some (Call (Global h) r))
  /\ (forall j fn, additionalHandlers !! j = Some fn ->
        HandleCrash cfg additionalHandlers r
          !! (length (PanicHandlers cfg) + j) = Some (Call fn r))
  /\ HandleCrash cfg additionalHandlers VNil = []
  /\ (forall v do t0 s i,
        do i = Panics r -> reachable v cfg do t0 s ->
        events_of i (trace s)
          `prefix_of` map (fun h => (Global h, r)) (PanicHandlers cfg)
                      ++ [(RearmStart, r)]
        /\ (forall ret, attempts s !! i = Some (ADone ret) ->
              events_of i (trace s)
              = map (fun h => (Global h, r)) (PanicHandlers cfg)
                ++ [(RearmStart, r)])).
Proof.
  intros Hr. rewrite (HandleCrash_fault cfg additionalHandlers r Hr).
  assert (forall extras,
             calls (HandleCrash cfg extras r)
             = map (fun h => (Global h, r)) (PanicHandlers cfg)
               ++ map (fun fn => (fn, r)) extras) as Hcalls.
  { intros extras. rewrite (HandleCrash_fault cfg extras r Hr).
    rewrite !calls_app, !calls_range_call, map_map.
    destruct (ReallyCrash cfg); simpl; by rewrite app_nil_r. }
  split; [|split; [|split; [|split]]].
  - rewrite <- (HandleCrash_fault cfg additionalHandlers r Hr). apply Hcalls.
  - intros i h Hi. apply lookup_app_l_Some, range_call_lookup.
    by rewrite list_lookup_fmap, Hi.
  - intros j fn Hj. rewrite lookup_app_r;
      rewrite length_range_call, length_map; [|lia].
    replace (length (PanicHandlers cfg) + j - length (PanicHandlers cfg))
      with j by lia.
    by apply lookup_app_l_Some, range_call_lookup.
  - reflexivity.
  - intros v do t0 s i Hdo Hreach.
    pose proof (calls_accounted_inv v cfg do t0 s i r Hdo Hreach) as Hacc.
    unfold calls_accounted in Hacc. rewrite (Hcalls [RearmStart]) in Hacc.
    simpl in Hacc.
    destruct (attempts s !! i) as [[|e|sc ret|ret]|] eqn:Hi.
    + rewrite Hacc. split; [apply prefix_nil|done].
    + destruct (panics_phase v cfg do t0 i r s _ Hdo Hreach Hi)
        as [?|[(? & ? & _)|?]]; done.
    + split; [|done]. rewrite <- Hacc. by apply prefix_app_r.
    + rewrite Hacc. split; [done|]. intros ? _. done.
    + rewrite Hacc. split; [apply prefix_nil|done].
Qed.

Lemma handlers_run_in_order_witness :
  calls (HandleCrash crashing_config [RearmStart] (VString "panicked"))
  = [(Global LogPanic, VString "panicked");
     (Global (Registered 7), VString "panicked");
     (RearmStart, VString "panicked")].
Proof.
  destruct (handlers_run_in_order crashing_config [RearmStart]
              (VString "panicked")) as [H _]; [discriminate|].
  exact H.
Defined.

(** ** C6: the re-raise flag *)

(** C6: on a fault with payload [r], with [ReallyCrash] set [HandleCrash]
    makes all the calls of the registry and of the additional handlers and
    then, last, re-raises [r] itself; with the flag off it re-raises
    nothing.  The flag is off by default, and under the default
    configuration the loops over a stop channel and over a context never
    let a panic end the process. *)
Theorem reraise_only_when_asked
    (cfg : Config) (additionalHandlers : list func) (r : value) :
  r <> VNil ->
  (ReallyCrash cfg = true ->
     HandleCrash cfg additionalHandlers r
     = (range_call (map Global (PanicHandlers cfg)) r
        ++ range_call additionalHandlers r) ++ [Repanic r]
     /\ reraised (HandleCrash cfg additionalHandlers r) = [r])
  /\ (ReallyCrash cfg = false ->
        reraised (HandleCrash cfg additionalHandlers r) = [])
  /\ ReallyCrash default_config = false
  /\ reraised (HandleCrash default_config additionalHandlers r) = []
  /\ (forall v do t0 s,
        v <> VTomb -> reachable v default_config do t0 s -> crashed s = false).
Proof.
  intros Hr. assert (is_nil r = false) as Hn by (by destruct r).
  split; [|split; [|split; [|split]]].
  - intros Hrc. rewrite reraised_HandleCrash, Hrc, Hn.
    rewrite (HandleCrash_fault cfg additionalHandlers r Hr), Hrc.
    by rewrite app_assoc.
  - intros Hrc. by rewrite reraised_HandleCrash, Hrc.
  - reflexivity.
  - by rewrite reraised_HandleCrash.
  - intros v do t0 s Hv Hreach.
    by apply (never_crashes v default_config do t0).
Qed.

Lemma reraise_only_when_asked_witness :
  HandleCrash crashing_config [RearmStart] (VString "panicked")
  = [Call (Global LogPanic) (VString "panicked");
     Call (Global (Registered 7)) (VString "panicked");
     Call RearmStart (VString "panicked");
     Repanic (VString "panicked")].
Proof.
  destruct (reraise_only_when_asked crashing_config [RearmStart]
              (VString "panicked")) as [H _]; [discriminate|].
  destruct (H eq_refl) as [H' _]. exact H'.
Defined.

(** ** C7: the default handler *)

(** With two goroutines in the process, what [logPanic] writes holds the
    stack of the calling goroutine and not that of the other one. *)
Lemma stack_trace_is_of_the_calling_goroutine :
  other_stacks two_goroutines = [x62]
  /\ captured_stack two_goroutines = [x61]
  /\ captured_stack two_goroutines
     <> take size (current_stack two_goroutines ++ other_stacks two_goroutines)
  /\ logPanic default_config two_goroutines (VString "boom") []
     = [("Observed a panic: boom" ++ newline ++ "a")%string].
Proof.
  split; [reflexivity|]. split; [vm_compute; reflexivity|].
  split; [vm_compute; discriminate|]. vm_compute. reflexivity.
Qed.

(** C7 (amended): [logPanic] formats the payload (as a string with [%s], any
    other value with [%#v] and [%v]) together with the captured stack trace
    and hands the message to [PrintError], which by default appends it to
    the standard logging output; the captured trace is the first
    [size = 64 KiB] bytes of the stack of the calling goroutine. *)
Theorem logPanic_writes_a_bounded_trace
    (cfg : Config) (lib : golib) (r : value) (out : output) :
  logPanic cfg lib r out
  = PrintError cfg
      match r with
      | VString s => Sprintf_s s (take size (current_stack lib))
      | _ => Sprintf_v lib r (take size (current_stack lib))
      end out
  /\ captured_stack lib = take size (current_stack lib)
  /\ length (captured_stack lib) <= size
  /\ size = 64 * 1024
  /\ PrintError default_config = log_Print
  /\ logPanic default_config lib r out
     = out ++ [match r with
               | VString s => Sprintf_s s (captured_stack lib)
               | _ => Sprintf_v lib r (captured_stack lib)
               end].
Proof.
  split; [|split; [|split; [|split; [|split]]]].
  - unfold logPanic. rewrite captured_stack_eq. by destruct r.
  - apply captured_stack_eq.
  - apply captured_stack_bounded.
  - apply size_value.
  - reflexivity.
  - unfold logPanic. by destruct r.
Qed.

(** ** C8: the non-blocking entry points *)

(** C8: [Go] and [GoTomb] are [go BlockingGo(...)] and
    [go BlockingGoTomb(...)].  The caller of [Go] is past the call after its
    own two steps, the call and the [go] statement, with a new goroutine
    about to call [BlockingGo] on the same arguments and no move of the loop
    made; it is never held up, whatever the work does.  The caller of
    [BlockingGo] is past the call only once the loop has returned, that is
    with the cancellation source signaled or [start] closed.  The loop goes
    through the same states under the same schedules in both, those of
    [Loop.run]; under [Go] it runs on the new goroutine, and it does launch
    the work there. *)
Theorem Go_detaches_BlockingGo
    (v : variant) (cfg : Config) (do : work) (ts : Tomb.mockTomb) :
  wrun cfg do [WOwn 0; WOwn 0] (program (FGo v) ts)
  = Some {| gs := [[SRest]; [SCall (FBlockingGo v) ts]]; sup := None |}
  /\ (forall wls w,
        wrun cfg do wls (program (FGo v) ts) = Some w ->
        (returned w = true
         \/ exists w', wexec cfg do (WOwn 0) w = Some w')
        /\ (sup w <> None ->
              returned w = true /\ exists k, gs w = [[SRest]; k]))
  /\ (forall wls w,
        wrun cfg do wls (program (FBlockingGo v) ts) = Some w ->
        returned w = true ->
        exists s,
          sup w = Some (v, s) /\ gs w = [[SRest]]
          /\ run v cfg do (loop_moves wls) (init ts) = Some s
          /\ driver s = DDone
          /\ (signaled v s = true \/ start_closed s = true))
  /\ (forall ls s,
        run v cfg do ls (init ts) = Some s
        <-> exists wls w,
              wrun cfg do wls (program (FGo v) ts) = Some w
              /\ loop_moves wls = ls /\ sup w = Some (v, s))
  /\ (forall ls s,
        run v cfg do ls (init ts) = Some s
        <-> exists wls w,
              wrun cfg do wls (program (FBlockingGo v) ts) = Some w
              /\ loop_moves wls = ls /\ sup w = Some (v, s))
  /\ ((v = VTomb -> Tomb.dead ts = false /\ Tomb.dying ts = false) ->
        exists wls s,
          wrun cfg do wls (program (FGo v) ts)
          = Some {| gs := [[SRest]; [SLoop]]; sup := Some (v, s) |}
          /\ attempts s = [ARun])
  /\ ((v = VTomb -> Tomb.dead ts = false /\ Tomb.dying ts = false) ->
        exists wls s,
          wrun cfg do wls (program (FBlockingGo v) ts)
          = Some {| gs := [[SLoop; SRest]]; sup := Some (v, s) |}
          /\ attempts s = [ARun]).
Proof.
  split; [done|]. split; [|split; [|split; [|split; [|split]]]].
  - intros wls w H.
    destruct (Go_worlds cfg do v ts wls w H)
      as [[_ [-> | [-> | ->]]]|(s & _ & [-> | [_ ->]])]; (split; [|try done]);
      try (by left); try (right; by eexists); eauto.
  - intros wls w H Hret.
    destruct (BlockingGo_worlds cfg do v ts wls w H)
      as [[_ ->]|(s & Hs & [-> | [Hd ->]])]; try done.
    exists s. repeat (split; [done|]).
    apply (done_reason v cfg do ts s); [by exists (loop_moves wls)|done].
  - intros ls s. split.
    + intros H.
      exists ([WOwn 0; WOwn 0; WOwn 1] ++ map WLoop ls). eexists.
      rewrite wrun_app. split; [|split].
      * change (wrun cfg do [WOwn 0; WOwn 0; WOwn 1] (program (FGo v) ts))
          with (Some {| gs := [[SRest]; [SLoop]];
                        sup := Some (v, init ts) |}).
        simpl. by apply wrun_loop.
      * simpl. apply loop_moves_map.
      * done.
    + intros (wls & w & H & <- & Hsup).
      destruct (Go_worlds cfg do v ts wls w H)
        as [[_ [-> | [-> | ->]]]|(s1 & Hs & [-> | [_ ->]])]; try done;
        simpl in Hsup; by simplify_eq.
  - intros ls s. split.
    + intros H.
      exists ([WOwn 0] ++ map WLoop ls). eexists.
      rewrite wrun_app. split; [|split].
      * change (wrun cfg do [WOwn 0] (program (FBlockingGo v) ts))
          with (Some {| gs := [[SLoop; SRest]];
                        sup := Some (v, init ts) |}).
        simpl. by apply wrun_loop.
      * simpl. apply loop_moves_map.
      * done.
    + intros (wls & w & H & <- & Hsup).
      destruct (BlockingGo_worlds cfg do v ts wls w H)
        as [[_ ->]|(s1 & Hs & [-> | [_ ->]])]; try done;
        simpl in Hsup; by simplify_eq.
  - intros Hts. destruct (first_launch cfg do v ts Hts) as (s & Hs & Ha).
    eexists ([WOwn 0; WOwn 0; WOwn 1] ++ map WLoop _), s.
    split; [|done]. rewrite wrun_app.
    change (wrun cfg do [WOwn 0; WOwn 0; WOwn 1] (program (FGo v) ts))
      with (Some {| gs := [[SRest]; [SLoop]]; sup := Some (v, init ts) |}).
    simpl. by apply wrun_loop.
  - intros Hts. destruct (first_launch cfg do v ts Hts) as (s & Hs & Ha).
    eexists ([WOwn 0] ++ map WLoop _), s.
    split; [|done]. rewrite wrun_app.
    change (wrun cfg do [WOwn 0] (program (FBlockingGo v) ts))
      with (Some {| gs := [[SLoop; SRest]]; sup := Some (v, init ts) |}).
    simpl. by apply wrun_loop.
Qed.

(** ** C9: a panic with the nil value *)

(** C9: when the call of the work panics with the nil value, [recover]
    gives nil and [HandleCrash] calls no handler, neither of the registry
    nor additional; in the loops, once such an attempt is launched no
    handler call is ever recorded for it, no token is offered on [start],
    no further attempt is launched, here or later, and [start] is never
    closed, so the loop never sees it closed; the [range] loops stay at
    their receive for ever. *)
Theorem nil_panic_escapes_containment
    (v : variant) (cfg : Config) (do : work) (t0 : Tomb.mockTomb)
    (s : state) (k : nat) :
  reachable v cfg do t0 s ->
  do k = Panics VNil ->
  k < length (attempts s) ->
  (forall extras, HandleCrash cfg extras VNil = [])
  /\ (attempts s !! k = Some ARun
      \/ attempts s !! k = Some (ADefer [] ErrNil)
      \/ attempts s !! k = Some (ADone ErrNil))
  /\ (forall fn r, (k, fn, r) ∉ trace s)
  /\ (forall from, exec v cfg do (LRecv from) s = None)
  /\ exec v cfg do LSpawn s = None
  /\ exec v cfg do LClosed s = None
  /\ (forall ls' s', run v cfg do ls' s = Some s' ->
        length (attempts s') = S k /\ start_closed s' = false)
  /\ (v <> VSelect -> driver s = DRecv).
Proof.
  intros Hr Hdo Hlt.
  destruct (nil_phase v cfg do t0 k s Hdo Hr Hlt)
    as (Hlen & Hc & a & Ha & _ & Hsh).
  destruct (nil_stalls v cfg do t0 k s Hdo Hr Hlt) as (Hrecv & Hspawn & Hcl).
  split; [intros; apply HandleCrash_nil|].
  split; [destruct Hsh as [-> | [-> | ->]]; auto|].
  split; [intros fn r; by apply (nil_silent v cfg do t0)|].
  split; [done|]. split; [done|]. split; [done|]. split.
  - intros ls' s' H'.
    assert (reachable v cfg do t0 s') as Hr' by (by eapply reachable_run).
    assert (length (attempts s) <= length (attempts s')) as Hle.
    { revert H'.
      apply (run_ind v cfg do
               (fun s1 => length (attempts s) <= length (attempts s1)));
        [done|].
      intros l s1 s2 IH Hx. pose proof (exec_length_le v cfg do _ _ _ Hx). lia. }
    destruct (nil_phase v cfg do t0 k s' Hdo Hr') as (? & ? & _); [lia|done].
  - intros Hv. by apply (nil_blocks_range_loop v cfg do t0 k).
Qed.

Lemma nil_panic_escapes_containment_witness :
  exists s,
    run VContext default_config panics_nil
      [LRecv Seeder; LCheck; LSpawn; LAttempt 0; LAttempt 0; LCancel ErrNil]
      (init Tomb.fresh) = Some s
    /\ attempts s = [ADone ErrNil] /\ trace s = [] /\ stop s = true
    /\ (forall extras, HandleCrash default_config extras VNil = [])
    /\ (attempts s !! 0 = Some ARun
        \/ attempts s !! 0 = Some (ADefer [] ErrNil)
        \/ attempts s !! 0 = Some (ADone ErrNil))
    /\ (forall fn r, (0, fn, r) ∉ trace s)
    /\ (forall from,
          exec VContext default_config panics_nil (LRecv from) s = None)
    /\ exec VContext default_config panics_nil LSpawn s = None
    /\ exec VContext default_config panics_nil LClosed s = None
    /\ (forall ls' s',
          run VContext default_config panics_nil ls' s = Some s' ->
          length (attempts s') = 1 /\ start_closed s' = false)
    /\ (VContext <> VSelect -> driver s = DRecv).
Proof.
  eexists. split; [vm_compute; reflexivity|]. do 3 (split; [reflexivity|]).
  apply (nil_panic_escapes_containment
           VContext default_config panics_nil Tomb.fresh _ 0).
  - exists [LRecv Seeder; LCheck; LSpawn; LAttempt 0; LAttempt 0;
            LCancel ErrNil].
    vm_compute. reflexivity.
  - reflexivity.
  - simpl. lia.
Defined.

(** ** C10: a contained fault in the tomb variant *)

(** C10: in the loop over a tomb, the closure of an attempt whose call of
    the work panicked returns the nil error whenever it returns; its return
    is the tomb's [run] accounting for a nil result, which leaves the
    reason of the group's death as it was or sets it to nil, never to a
    non-nil error. *)
Theorem contained_fault_returns_nil_to_tomb
    (cfg : Config) (do : work) (t0 : Tomb.mockTomb) (s : state)
    (k : nat) (r : value) :
  reachable VTomb cfg do t0 s ->
  do k = Panics r ->
  (forall sc ret, attempts s !! k = Some (ADefer sc ret) -> ret = ErrNil)
  /\ (forall ret, attempts s !! k = Some (ADone ret) -> ret = ErrNil)
  /\ (forall ret, attempts s !! k = Some (ADefer [] ret) ->
        crashed s = false ->
        exec VTomb cfg do (LAttempt k) s = Some (retire VTomb k ErrNil s))
  /\ (forall t', Tomb.run_exit ErrNil (tomb s) = Some t' ->
        tomb (retire VTomb k ErrNil s) = t'
        /\ (Tomb.reason t' = Tomb.reason (tomb s) \/ Tomb.reason t' = ErrNil))
  /\ (Tomb.reason (tomb (retire VTomb k ErrNil s)) = Tomb.reason (tomb s)
      \/ Tomb.reason (tomb (retire VTomb k ErrNil s)) = ErrNil).
Proof.
  intros Hr Hdo.
  assert (forall a, attempts s !! k = Some a ->
            match a with
            | ADefer _ ret | ADone ret => ret = ErrNil
            | _ => True
            end) as Hph.
  { intros a Ha.
    destruct (panics_phase VTomb cfg do t0 k r s a Hdo Hr Ha)
      as [->|[(sc & -> & _)| ->]]; done. }
  split; [intros sc ret Hk; apply (Hph _ Hk)|].
  split; [intros ret Hk; apply (Hph _ Hk)|].
  split; [|split].
  - intros ret Hk Hcr. pose proof (Hph _ Hk) as ->.
    unfold exec, attempt_step. by rewrite Hcr, Hk.
  - intros t' Ht'. split; [unfold retire; by rewrite Ht'|].
    by apply run_exit_nil.
  - unfold retire. destruct (Tomb.run_exit ErrNil (tomb s)) as [t'|] eqn:Ht'.
    + by apply run_exit_nil.
    + by left.
Qed.

Lemma contained_fault_returns_nil_to_tomb_witness :
  exists s,
    run VTomb default_config always_panics
      [LRecv Seeder; LCheck; LSpawn; LAttempt 0; LAttempt 0;
       LRecv (Handler 0); LAttempt 0]
      (init busy_tomb) = Some s
    /\ attempts s = [ADone ErrNil]
    /\ Tomb.reason (tomb s) = ErrStillAlive
    /\ (forall sc ret, attempts s !! 0 = Some (ADefer sc ret) -> ret = ErrNil)
    /\ (forall ret, attempts s !! 0 = Some (ADone ret) -> ret = ErrNil)
    /\ (forall ret, attempts s !! 0 = Some (ADefer [] ret) ->
          crashed s = false ->
          exec VTomb default_config always_panics (LAttempt 0) s
          = Some (retire VTomb 0 ErrNil s))
    /\ (forall t', Tomb.run_exit ErrNil (tomb s) = Some t' ->
          tomb (retire VTomb 0 ErrNil s) = t'
          /\ (Tomb.reason t' = Tomb.reason (tomb s)
              \/ Tomb.reason t' = ErrNil))
    /\ (Tomb.reason (tomb (retire VTomb 0 ErrNil s)) = Tomb.reason (tomb s)
        \/ Tomb.reason (tomb (retire VTomb 0 ErrNil s)) = ErrNil).
Proof.
  eexists. split; [vm_compute; reflexivity|]. do 2 (split; [reflexivity|]).
  apply (contained_fault_returns_nil_to_tomb
           default_config always_panics busy_tomb _ 0 (VString "panicked")).
  - exists [LRecv Seeder; LCheck; LSpawn; LAttempt 0; LAttempt 0;
            LRecv (Handler 0); LAttempt 0].
    vm_compute. reflexivity.
  - reflexivity.
Defined.

(** * Further properties *)

(** ** The life of a tomb *)

Module TombMore.
Import Tomb TombView TombFacts.

Lemma int_wrap_id z : is_int z -> int_wrap z = z.
Proof.
  unfold is_int, int_wrap. intros Hz.
  rewrite Z.mod_small; [lia|].
  change (2 ^ 64)%Z with (2 ^ 63 + 2 ^ 63)%Z. lia.
Qed.

Lemma kill_consistent why t t' :
  consistent t -> kill why t = Some t' ->
  consistent t' /\ dying t' = true
  /\ alive t' = alive t /\ dead t' = dead t.
Proof.
  unfold consistent, kill. intros [Hd Hdead] H.
  assert (reason t <> ErrStillAlive -> dying t = true) as Hdy.
  { intros Hne. destruct (dying t); [done|]. by destruct Hne; apply Hd. }
  destruct why, (reason t) eqn:Hr; simplify_eq; simpl; rewrite ?Hr;
    repeat split; simpl; rewrite ?Hr; intros; try congruence;
    try (apply Hdy; congruence); try (apply Hd; congruence); auto;
    try (exfalso; assert (dying t = true) by (apply Hdy; congruence);
         congruence).
Qed.

Lemma Go_consistent t t' :
  consistent t -> Go t = Some t' ->
  consistent t' /\ dying t' = dying t /\ reason t' = reason t
  /\ dead t = false /\ dead t' = false.
Proof.
  unfold consistent, Go. intros Hc H.
  destruct (dead t) eqn:Hdead; simplify_eq; simpl. done.
Qed.

Lemma run_exit_consistent err t t' :
  consistent t -> run_exit err t = Some t' ->
  consistent t' /\ (dying t = true -> dying t' = true)
  /\ (dead t = true -> dead t' = true).
Proof.
  unfold run_exit. intros Hc H.
  set (t1 := {| alive := int_wrap (alive t - 1); dying := dying t;
                dead := dead t; reason := reason t |}) in *.
  assert (consistent t1) as Hc1 by done.
  destruct ((alive t1 =? 0)%Z || negb (err_is_nil err)); [|by simplify_eq].
  destruct (kill err t1) as [t2|] eqn:Hk; [|done].
  destruct (kill_consistent _ _ _ Hc1 Hk) as ([Hd2 Hdead2] & Hdy2 & _ & Hde2).
  destruct (alive t1 =? 0)%Z; [destruct (dead t2) eqn:E|]; simplify_eq; simpl.
  - split; [done|]. split; done.
  - split; [done|]. split; [done|]. by rewrite Hde2.
Qed.

Lemma perform_consistent o t t' :
  consistent t -> perform o t = Some t' ->
  consistent t' /\ (dying t = true -> dying t' = true)
  /\ (dead t = true -> dead t' = true).
Proof.
  intros Hc H. destruct o as [why| |err]; simpl in H.
  - destruct (kill_consistent _ _ _ Hc H) as (? & ? & _ & Hde).
    split; [done|]. split; [done|]. by rewrite Hde.
  - destruct (Go_consistent _ _ Hc H) as (? & Hdy & _ & Hde & _).
    split; [done|]. split; [by rewrite Hdy|]. congruence.
  - by apply (run_exit_consistent err).
Qed.

Lemma kill_reason_kept why t t' :
  reason t <> ErrStillAlive -> reason t <> ErrNil ->
  kill why t = Some t' -> reason t' = reason t.
Proof.
  unfold kill. intros H1 H2 H.
  destruct why, (reason t) eqn:Hr; simplify_eq; simpl; by rewrite ?Hr.
Qed.

Lemma perform_reason_kept o t t' :
  reason t <> ErrStillAlive -> reason t <> ErrNil ->
  perform o t = Some t' -> reason t' = reason t.
Proof.
  intros H1 H2 H. destruct o as [why| |err]; simpl in H.
  - by apply (kill_reason_kept why).
  - unfold Go in H. destruct (dead t); by simplify_eq.
  - unfold run_exit in H.
    destruct (_ || _); [|by simplify_eq].
    destruct (kill err _) as [t2|] eqn:Hk; [|done].
    apply kill_reason_kept in Hk; [|done|done]. simpl in Hk.
    destruct (_ =? 0)%Z; [destruct (dead t2)|]; by simplify_eq.
Qed.

End TombMore.

Import TombView TombMore.

(** X1: starting from a consistent tomb (as [init] leaves it), whatever
    calls of [Kill], [Go] and returns of tracked functions are made without
    a panic, the tomb stays consistent: [Alive] answers false exactly when
    the dying channel is closed, [Wait] never gives [ErrStillAlive], and a
    dying or dead tomb stays so. *)
Theorem tomb_stays_consistent
    (os : list op) (t t' : Tomb.mockTomb) :
  consistent t ->
  perform_all os t = Some t' ->
  consistent t'
  /\ Alive t' = negb (Tomb.dying t')
  /\ (forall e, Wait t' = Some e -> e <> ErrStillAlive)
  /\ (Tomb.dying t = true -> Tomb.dying t' = true)
  /\ (Tomb.dead t = true -> Tomb.dead t' = true).
Proof.
  intros Hc H.
  assert (consistent t' /\ (Tomb.dying t = true -> Tomb.dying t' = true)
          /\ (Tomb.dead t = true -> Tomb.dead t' = true)) as (Hc' & Hdy & Hde).
  { revert t Hc H. induction os as [|o os IH]; intros t Hc H; simpl in H.
    - by simplify_eq.
    - destruct (perform o t) as [t1|] eqn:Ho; [|done].
      destruct (perform_consistent o t t1 Hc Ho) as (Hc1 & Hdy1 & Hde1).
      destruct (IH t1 Hc1 H) as (? & ? & ?). auto. }
  split; [done|]. destruct Hc' as [Hd Hdead].
  split; [|split; [|done]].
  - unfold Alive, Err. destruct (Tomb.dying t') eqn:E; simpl.
    + destruct (Tomb.reason t') eqn:Hr; try done.
      assert (true = false) by (by apply Hd). done.
    + by rewrite (proj1 Hd eq_refl).
  - unfold Wait. destruct (Tomb.dead t') eqn:E; [|done].
    intros e [= <-] Hr. apply Hd in Hr. rewrite Hdead in Hr; done.
Qed.

Lemma tomb_stays_consistent_witness :
  exists t',
    perform_all [OpGo; OpGo; OpReturn (ErrOther 4); OpKill ErrNil;
                 OpReturn ErrNil] Tomb.fresh = Some t'
    /\ Tomb.reason t' = ErrOther 4 /\ Tomb.dead t' = true
    /\ consistent t'
    /\ Alive t' = negb (Tomb.dying t')
    /\ (forall e, Wait t' = Some e -> e <> ErrStillAlive)
    /\ (Tomb.dying Tomb.fresh = true -> Tomb.dying t' = true)
    /\ (Tomb.dead Tomb.fresh = true -> Tomb.dead t' = true).
Proof.
  eexists. split; [vm_compute; reflexivity|]. do 2 (split; [reflexivity|]).
  apply (tomb_stays_consistent
           [OpGo; OpGo; OpReturn (ErrOther 4); OpKill ErrNil; OpReturn ErrNil]
           Tomb.fresh).
  - split; [done|]. simpl. discriminate.
  - vm_compute. reflexivity.
Defined.

(** X2: the first non-nil error a tomb is killed with is the reason of its
    death for good: [Kill] with an error of the caller's on a tomb that is
    alive, or dying with a nil reason, records it, and no later [Kill], [Go]
    or return of a tracked function replaces it. *)
Theorem first_error_is_the_reason
    (n : nat) (t : Tomb.mockTomb) :
  Tomb.reason t = ErrStillAlive \/ Tomb.reason t = ErrNil ->
  exists t1,
    Tomb.Kill (ErrOther n) t = Some t1
    /\ Tomb.reason t1 = ErrOther n
    /\ (Tomb.reason t = ErrStillAlive -> Tomb.dying t1 = true)
    /\ forall os t', perform_all os t1 = Some t' ->
         Tomb.reason t' = ErrOther n.
Proof.
  intros Hr.
  assert (forall os t1 t', Tomb.reason t1 = ErrOther n ->
            perform_all os t1 = Some t' -> Tomb.reason t' = ErrOther n) as Hkeep.
  { induction os as [|o os IH]; intros t1 t' H1 H; simpl in H.
    - by simplify_eq.
    - destruct (perform o t1) as [t2|] eqn:Ho; [|done].
      apply (IH t2); [|done].
      rewrite (perform_reason_kept o t1 t2); [done| | |done]; by rewrite H1. }
  unfold Tomb.Kill, Tomb.kill.
  destruct Hr as [Hr|Hr]; rewrite Hr; eexists; (split; [reflexivity|]);
    (split; [reflexivity|]); (split; [done|]); intros os t'; by apply Hkeep.
Qed.

Lemma first_error_is_the_reason_witness :
  exists t1,
    Tomb.Kill (ErrOther 1) Tomb.fresh = Some t1
    /\ Tomb.reason t1 = ErrOther 1
    /\ (Tomb.reason Tomb.fresh = ErrStillAlive -> Tomb.dying t1 = true)
    /\ forall os t', perform_all os t1 = Some t' ->
         Tomb.reason t' = ErrOther 1.
Proof. apply (first_error_is_the_reason 1 Tomb.fresh). by left. Defined.

(** X3: a tracked function that returns nil undoes its [Go] when the tomb
    tracks other goroutines: the tomb is as before.  When it was the only
    one, its return kills the tomb with a nil reason and closes [dead], and
    every later [Go] panics. *)
Theorem Go_then_return_nil
    (t : Tomb.mockTomb) :
  consistent t ->
  Tomb.dead t = false ->
  is_int (Tomb.alive t) -> is_int (Tomb.alive t + 1) ->
  (Tomb.alive t <> 0%Z ->
     perform_all [OpGo; OpReturn ErrNil] t = Some t)
  /\ (Tomb.alive t = 0%Z ->
        exists t',
          perform_all [OpGo; OpReturn ErrNil] t = Some t'
          /\ Tomb.dead t' = true /\ Tomb.dying t' = true
          /\ (Tomb.reason t = ErrStillAlive -> Tomb.reason t' = ErrNil)
          /\ Tomb.Go t' = None).
Proof.
  intros Hc Hdead Hi Hi1. simpl. unfold Tomb.Go. rewrite Hdead.
  unfold Tomb.run_exit. simpl.
  rewrite (int_wrap_id (Tomb.alive t + 1) Hi1).
  replace (Tomb.alive t + 1 - 1)%Z with (Tomb.alive t) by lia.
  rewrite (int_wrap_id (Tomb.alive t) Hi), orb_false_r.
  split.
  - intros Hne. apply Z.eqb_neq in Hne. rewrite Hne.
    destruct t; simpl in *. by rewrite Hdead.
  - intros Hz. rewrite Hz. simpl.
    assert (Tomb.reason t <> ErrStillAlive -> Tomb.dying t = true) as Hdy.
    { intros Hne. destruct Hc as [Hd _].
      destruct (Tomb.dying t); [done|]. by destruct Hne; apply Hd. }
    destruct (Tomb.reason t) eqn:Hr; simpl; eexists;
      (split; [reflexivity|]); simpl; rewrite ?Hr;
      repeat split; try done; by apply Hdy.
Qed.

Lemma Go_then_return_nil_witness :
  (Tomb.alive busy_tomb <> 0%Z ->
     perform_all [OpGo; OpReturn ErrNil] busy_tomb = Some busy_tomb)
  /\ (Tomb.alive busy_tomb = 0%Z ->
        exists t',
          perform_all [OpGo; OpReturn ErrNil] busy_tomb = Some t'
          /\ Tomb.dead t' = true /\ Tomb.dying t' = true
          /\ (Tomb.reason busy_tomb = ErrStillAlive -> Tomb.reason t' = ErrNil)
          /\ Tomb.Go t' = None).
Proof.
  apply (Go_then_return_nil busy_tomb).
  - split; [done|]. simpl. discriminate.
  - reflexivity.
  - unfold is_int. simpl. lia.
  - unfold is_int. simpl. lia.
Defined.


Import LoopView LoopMore.

(** X4: in each of the three loops at most one attempt is inside its call
    of the work (or between that call and its [close(start)]) at a time,
    and it is the latest one launched: no token is on offer from the
    seeding goroutine, the loop is at its receive or has returned, [start]
    is open, and every other attempt is past its re-arm. *)
Theorem one_call_at_a_time
    (v : variant) (cfg : Config) (do : work) (t0 : Tomb.mockTomb)
    (s : state) (i : nat) (a : apc) :
  reachable v cfg do t0 s ->
  attempts s !! i = Some a ->
  in_call a ->
  S i = length (attempts s)
  /\ seeder s = false
  /\ (driver s = DRecv \/ driver s = DDone)
  /\ start_closed s = false
  /\ forall j b, j <> i -> attempts s !! j = Some b ->
       ~ in_call b /\ held b = 0.
Proof.
  intros Hr Hi Hin.
  assert (held a = 1) as Hh by (destruct Hin as [->|[e ->]]; done).
  pose proof (token_with_attempt v cfg do t0 s i a Hr Hi) as Ht.
  split; [|split; [|split; [|split]]].
  - pose proof (lookup_lt_Some _ _ _ Hi).
    destruct (decide (S i < length (attempts s))) as [Hlt|]; [|lia].
    pose proof (older_idle v cfg do t0 s i a Hr Hlt Hi). lia.
  - destruct (seeder s); [lia|done].
  - destruct (driver s); simpl in Ht; auto; lia.
  - destruct (start_closed s) eqn:Hc; [|done].
    pose proof (closed_attempt_idle v cfg do t0 s i a Hr Hc Hi). lia.
  - intros j b Hne Hj.
    pose proof (token_two_attempts v cfg do t0 s j i b a Hr Hne Hj Hi) as H2.
    split; [|lia]. intros [->|[e ->]]; simpl in H2; lia.
Qed.

Lemma one_call_at_a_time_witness :
  exists s,
    run VTomb default_config always_panics
      [LRecv Seeder; LCheck; LSpawn; LAttempt 0; LAttempt 0;
       LRecv (Handler 0); LCheck; LSpawn]
      (init busy_tomb) = Some s
    /\ attempts s = [ADefer [] ErrNil; ARun]
    /\ 2 = length (attempts s)
    /\ seeder s = false
    /\ (driver s = DRecv \/ driver s = DDone)
    /\ start_closed s = false
    /\ forall j b, j <> 1 -> attempts s !! j = Some b ->
         ~ in_call b /\ held b = 0.
Proof.
  eexists. split; [vm_compute; reflexivity|]. split; [reflexivity|].
  apply (one_call_at_a_time VTomb default_config always_panics busy_tomb
           _ 1 ARun).
  - exists [LRecv Seeder; LCheck; LSpawn; LAttempt 0; LAttempt 0;
            LRecv (Handler 0); LCheck; LSpawn].
    vm_compute. reflexivity.
  - reflexivity.
  - by left.
Defined.

(** X5: a blocking call that has returned did so for one of two reasons
    only: the cancellation source is signaled, or [start] is closed, and
    then the last attempt launched is one whose call of the work returned.
    In the loops over a stop channel and over a context only the
    environment signals, so under a schedule in which nobody cancels they
    return the second way only: there a fault alone never makes the call
    return.  (In the loop over a tomb the signal can be the tomb's own
    doing: the return of the last tracked closure kills it.) *)
Theorem returns_only_on_completion_or_cancellation
    (v : variant) (cfg : Config) (do : work) (t0 : Tomb.mockTomb)
    (ls : list label) (s : state) :
  run v cfg do ls (init t0) = Some s ->
  driver s = DDone ->
  (signaled v s = true
   \/ (start_closed s = true
       /\ exists k e, do k = Returns e /\ S k = length (attempts s)))
  /\ (v <> VTomb -> Forall (fun l => is_cancel l = false) ls ->
        signaled v s = false
        /\ start_closed s = true
        /\ exists k e, do k = Returns e /\ S k = length (attempts s)).
Proof.
  intros H Hd.
  assert (reachable v cfg do t0 s) as Hr by (by exists ls).
  assert (start_closed s = true ->
          exists k e, do k = Returns e /\ S k = length (attempts s)) as Hret.
  { intros Hc.
    destruct (closed_by_return v cfg do t0 s Hr Hc) as (k & e & Hdo & Hlt).
    exists k, e. split; [done|].
    by destruct (returns_phase v cfg do t0 k e s Hdo Hr Hlt) as [-> _]. }
  destruct (done_reason v cfg do t0 s Hr Hd) as [Hs|Hc].
  - split; [by left|]. intros Hv HQ.
    by rewrite (uncancelled v cfg do t0 ls s Hv HQ H) in Hs.
  - split; [right; auto|]. intros Hv HQ.
    split; [by apply (uncancelled v cfg do t0 ls)|auto].
Qed.

Lemma returns_only_on_completion_or_cancellation_witness :
  exists s,
    run VSelect default_config (succeeds_at 0)
      [LRecv Seeder; LSpawn; LAttempt 0; LAttempt 0; LClosed]
      (init Tomb.fresh) = Some s
    /\ (signaled VSelect s = true
        \/ (start_closed s = true
            /\ exists k e, succeeds_at 0 k = Returns e
                           /\ S k = length (attempts s)))
    /\ (VSelect <> VTomb ->
        Forall (fun l => is_cancel l = false)
          [LRecv Seeder; LSpawn; LAttempt 0; LAttempt 0; LClosed] ->
        signaled VSelect s = false
        /\ start_closed s = true
        /\ exists k e, succeeds_at 0 k = Returns e
                       /\ S k = length (attempts s)).
Proof.
  eexists. split; [vm_compute; reflexivity|].
  apply (returns_only_on_completion_or_cancellation
           VSelect default_config (succeeds_at 0) Tomb.fresh
           [LRecv Seeder; LSpawn; LAttempt 0; LAttempt 0; LClosed]).
  - vm_compute. reflexivity.
  - reflexivity.
Defined.

(** X6: when the loop over a context or over a tomb has returned, no call
    of the work is running: every attempt launched has finished its call.
    (The loop over a stop channel can return with an attempt in its
    call.) *)
Theorem range_loop_returns_with_no_call_running
    (v : variant) (cfg : Config) (do : work) (t0 : Tomb.mockTomb)
    (s : state) :
  v <> VSelect ->
  reachable v cfg do t0 s ->
  driver s = DDone ->
  calls_finished s = length (attempts s)
  /\ forall i, attempts s !! i <> Some ARun.
Proof.
  intros Hv Hr Hd.
  pose proof (range_done_idle v cfg do t0 s Hv Hr Hd) as Hidle.
  split.
  - apply all_finished. intros a [i Hi]%list_elem_of_lookup_1. eauto.
  - intros i Hi. by pose proof (Hidle i ARun Hi).
Qed.

Lemma range_loop_returns_with_no_call_running_witness :
  exists s,
    run VContext default_config always_panics
      [LRecv Seeder; LCheck; LSpawn; LCancel ErrNil; LAttempt 0; LAttempt 0;
       LRecv (Handler 0); LCheck]
      (init Tomb.fresh) = Some s
    /\ driver s = DDone
    /\ calls_finished s = length (attempts s)
    /\ forall i, attempts s !! i <> Some ARun.
Proof.
  eexists. split; [vm_compute; reflexivity|]. split; [reflexivity|].
  apply (range_loop_returns_with_no_call_running
           VContext default_config always_panics Tomb.fresh).
  - discriminate.
  - exists [LRecv Seeder; LCheck; LSpawn; LCancel ErrNil; LAttempt 0;
            LAttempt 0; LRecv (Handler 0); LCheck].
    vm_compute. reflexivity.
  - reflexivity.
Defined.

(** X7: in the loop over a context and in the loop over a tomb, when
    cancellation is signaled while an attempt is in its call of the work
    (as the work of the tests does at its third call), that attempt is the
    last: whatever it does next and however the goroutines are scheduled,
    no further attempt is launched. *)
Theorem cancel_within_call_ends_range_loop
    (v : variant) (cfg : Config) (do : work) (t0 : Tomb.mockTomb)
    (s : state) (k : nat) (ls : list label) (s' : state) :
  v <> VSelect ->
  reachable v cfg do t0 s ->
  attempts s !! k = Some ARun ->
  signaled v s = true ->
  run v cfg do ls s = Some s' ->
  length (attempts s') = S k /\ signaled v s' = true.
Proof.
  intros Hv Hr Hk Hs H.
  pose proof (token_with_attempt v cfg do t0 s k ARun Hr Hk) as Ht.
  assert (driver s <> DSpawn) as Hd
    by (intros Hd; rewrite Hd in Ht; simpl in Ht; lia).
  destruct (run_cancelled v cfg do ls s s' Hv H Hs Hd) as (Hs' & _ & Hlen).
  split; [|done]. rewrite Hlen.
  pose proof (lookup_lt_Some _ _ _ Hk).
  destruct (decide (S k < length (attempts s))) as [Hlt|]; [|lia].
  pose proof (older_idle v cfg do t0 s k ARun Hr Hlt Hk). done.
Qed.

Lemma cancel_within_call_ends_range_loop_witness :
  exists s s',
    run VTomb default_config always_panics
      [LRecv Seeder; LCheck; LSpawn; LAttempt 0; LAttempt 0;
       LRecv (Handler 0); LCheck; LSpawn; LAttempt 1; LAttempt 1;
       LRecv (Handler 1); LCheck; LSpawn; LCancel ErrNil]
      (init busy_tomb) = Some s
    /\ run VTomb default_config always_panics
         [LAttempt 2; LAttempt 2; LRecv (Handler 2); LCheck] s = Some s'
    /\ driver s' = DDone
    /\ length (attempts s') = 3 /\ signaled VTomb s' = true.
Proof.
  do 2 eexists. split; [vm_compute; reflexivity|].
  split; [vm_compute; reflexivity|]. split; [reflexivity|].
  eapply (cancel_within_call_ends_range_loop
            VTomb default_config always_panics busy_tomb _ 2
            [LAttempt 2; LAttempt 2; LRecv (Handler 2); LCheck]).
  - discriminate.
  - exists [LRecv Seeder; LCheck; LSpawn; LAttempt 0; LAttempt 0;
            LRecv (Handler 0); LCheck; LSpawn; LAttempt 1; LAttempt 1;
            LRecv (Handler 1); LCheck; LSpawn; LCancel ErrNil].
    vm_compute. reflexivity.
  - reflexivity.
  - reflexivity.
  - vm_compute. reflexivity.
Defined.

(** X8: in the loop over a context and in the loop over a tomb, from any
    state in which cancellation is signaled at most one more attempt is
    launched (the one the loop had already decided on). *)
Theorem range_loop_launches_at_most_once_after_cancel
    (v : variant) (cfg : Config) (do : work)
    (s : state) (ls : list label) (s' : state) :
  v <> VSelect ->
  signaled v s = true ->
  run v cfg do ls s = Some s' ->
  length (attempts s') <= S (length (attempts s)).
Proof. intros Hv Hs H. by apply (run_cancelled_le v cfg do ls). Qed.

Lemma range_loop_launches_at_most_once_after_cancel_witness :
  exists s s',
    run VContext default_config always_panics
      [LRecv Seeder; LCheck; LCancel ErrNil] (init Tomb.fresh) = Some s
    /\ run VContext default_config always_panics
         [LSpawn; LAttempt 0; LAttempt 0; LRecv (Handler 0); LCheck] s
       = Some s'
    /\ length (attempts s) = 0 /\ length (attempts s') = 1
    /\ length (attempts s') <= S (length (attempts s)).
Proof.
  do 2 eexists. split; [vm_compute; reflexivity|].
  split; [vm_compute; reflexivity|]. do 2 (split; [reflexivity|]).
  apply (range_loop_launches_at_most_once_after_cancel
           VContext default_config always_panics _
           [LSpawn; LAttempt 0; LAttempt 0; LRecv (Handler 0); LCheck]).
  - discriminate.
  - reflexivity.
  - vm_compute. reflexivity.
Defined.

(** X9: once the blocking call has returned, an attempt that has faulted
    and reached its re-arm ([start <- struct{}{}]) stays blocked on that
    send for ever: nobody receives from [start] any more, so its goroutine
    never ends. *)
Theorem faulting_after_return_blocks_forever
    (v : variant) (cfg : Config) (do : work)
    (s : state) (i : nat) (r : value) (rest : list action) (ret : error)
    (ls : list label) (s' : state) :
  driver s = DDone ->
  attempts s !! i = Some (ADefer (Call RearmStart r :: rest) ret) ->
  run v cfg do ls s = Some s' ->
  attempts s' !! i = Some (ADefer (Call RearmStart r :: rest) ret)
  /\ driver s' = DDone
  /\ ((i, RearmStart, r) ∉ trace s -> (i, RearmStart, r) ∉ trace s').
Proof.
  intros Hd Hi H. revert H.
  apply (run_ind v cfg do
           (fun s1 =>
              attempts s1 !! i = Some (ADefer (Call RearmStart r :: rest) ret)
              /\ driver s1 = DDone
              /\ ((i, RearmStart, r) ∉ trace s ->
                  (i, RearmStart, r) ∉ trace s1))).
  { done. }
  intros l s1 s2 (Hi1 & Hd1 & Htr1) H.
  split; [by apply (blocked_exec v cfg do l s1)|].
  split; [by destruct (exec_driver_done v cfg do _ _ _ H Hd1) as [[? _]|[? _]]|].
  intros Hnot. specialize (Htr1 Hnot).
  destruct (exec_trace v cfg do _ _ _ H)
    as [[-> _]|(j & fn & r0 & rest0 & ret0 & Htr & Hj & Hat)]; [done|].
  rewrite Htr, elem_of_app. intros [?|Hin]; [done|].
  apply list_elem_of_singleton in Hin. simplify_eq.
  by apply (rearm_needs_receiver v cfg do l s1 s2 j r0 H Hd1).
Qed.

Lemma faulting_after_return_blocks_forever_witness :
  exists s s',
    run VSelect default_config always_panics
      [LRecv Seeder; LSpawn; LCancel ErrNil; LStop; LAttempt 0; LAttempt 0]
      (init Tomb.fresh) = Some s
    /\ run VSelect default_config always_panics
         [LCancel ErrNil; LCancel ErrNil] s = Some s'
    /\ attempts s' !! 0
       = Some (ADefer [Call RearmStart (VString "panicked")] ErrNil)
    /\ driver s' = DDone
    /\ ((0, RearmStart, VString "panicked") ∉ trace s ->
        (0, RearmStart, VString "panicked") ∉ trace s').
Proof.
  do 2 eexists. split; [vm_compute; reflexivity|].
  split; [vm_compute; reflexivity|].
  eapply (faulting_after_return_blocks_forever
            VSelect default_config always_panics _ 0 (VString "panicked")
            [] ErrNil [LCancel ErrNil; LCancel ErrNil]).
  - reflexivity.
  - reflexivity.
  - vm_compute. reflexivity.
Defined.

(** X10: an attempt whose call of the work does not panic (it returns, or
    it never ends) never has a handler called for it, neither of the
    registry nor the re-arm. *)
Theorem no_handler_without_fault
    (v : variant) (cfg : Config) (do : work) (t0 : Tomb.mockTomb)
    (s : state) (k : nat) :
  quiet_at do k ->
  reachable v cfg do t0 s ->
  events_of k (trace s) = []
  /\ forall fn r, (k, fn, r) ∉ trace s.
Proof.
  intros Hq Hr.
  assert (forall fn r, (k, fn, r) ∉ trace s) as Hnone.
  { revert s Hr.
    apply (reachable_ind_strong v cfg do
             (fun s => forall fn r, (k, fn, r) ∉ trace s)).
    { intros fn r. apply not_elem_of_nil. }
    intros l s s' Hr IH H fn r.
    destruct (exec_trace v cfg do _ _ _ H)
      as [[-> _]|(j & fn' & r' & rest & ret & Htr & Hj & _)]; [done|].
    rewrite Htr, elem_of_app. intros [Hin|Hin]; [by apply (IH fn r)|].
    apply list_elem_of_singleton in Hin. simplify_eq.
    exact (quiet_phase v cfg do t0 s _ _ _ _ Hq Hr Hj). }
  split; [|done].
  destruct (events_of k (trace s)) as [|[fn r] evs] eqn:E; [done|].
  exfalso. apply (Hnone fn r), events_of_elem. rewrite E. left.
Qed.

Lemma no_handler_without_fault_witness :
  exists s,
    run VSelect default_config (succeeds_at 1)
      [LRecv Seeder; LSpawn; LAttempt 0; LAttempt 0; LRecv (Handler 0);
       LSpawn; LAttempt 0; LAttempt 1; LAttempt 1; LAttempt 1; LClosed]
      (init Tomb.fresh) = Some s
    /\ events_of 0 (trace s)
       = [(Global LogPanic, VString "panicked");
          (RearmStart, VString "panicked")]
    /\ events_of 1 (trace s) = []
    /\ forall fn r, (1, fn, r) ∉ trace s.
Proof.
  eexists. split; [vm_compute; reflexivity|]. split; [reflexivity|].
  apply (no_handler_without_fault
           VSelect default_config (succeeds_at 1) Tomb.fresh _ 1).
  - intros r. discriminate.
  - exists [LRecv Seeder; LSpawn; LAttempt 0; LAttempt 0; LRecv (Handler 0);
            LSpawn; LAttempt 0; LAttempt 1; LAttempt 1; LAttempt 1; LClosed].
    vm_compute. reflexivity.
Defined.

(** ** The loop over a tomb and the tomb's count *)

Module TombLoop.
Import Crash Loop LoopView CrashFacts LoopFacts LoopMore.

Lemma kill_keeps why t t' :
  Tomb.kill why t = Some t' ->
  Tomb.alive t' = Tomb.alive t /\ Tomb.dead t' = Tomb.dead t.
Proof.
  unfold Tomb.kill. intros H.
  destruct why, (Tomb.reason t); by simplify_eq.
Qed.

Lemma run_exit_counts err t :
  plain err = true -> is_int (Tomb.alive t - 1) ->
  (Tomb.alive t - 1)%Z <> 0%Z ->
  exists t', Tomb.run_exit err t = Some t'
             /\ Tomb.alive t' = (Tomb.alive t - 1)%Z
             /\ Tomb.dead t' = Tomb.dead t.
Proof.
  intros Hp Hi Hne. unfold Tomb.run_exit. simpl.
  rewrite (int_wrap_id _ Hi). apply Z.eqb_neq in Hne. rewrite Hne. simpl.
  destruct err; try done; simpl.
  - eexists. done.
  - unfold Tomb.kill. simpl.
    destruct (Tomb.reason t); eexists; done.
Qed.

Section Steps.
Variables (cfg : Config) (do : work) (t0 : Tomb.mockTomb).

Lemma returned_plain s i a :
  plain_work do -> reachable VTomb cfg do t0 s -> attempts s !! i = Some a ->
  match a with
  | ARun => True
  | AClose e | ADefer _ e | ADone e => plain e = true
  end.
Proof.
  intros Hp Hr. revert i a. revert s Hr.
  apply (reachable_ind VTomb cfg do
           (fun s => forall i a, attempts s !! i = Some a ->
              match a with
              | ARun => True
              | AClose e | ADefer _ e | ADone e => plain e = true
              end)).
  { intros i a Ha. simpl in Ha. by rewrite lookup_nil in Ha. }
  intros l s s' IH H i a' Hi'.
  destruct (exec_lookup VTomb cfg do _ _ _ _ _ H Hi')
    as [Hsame|[(_ & -> & _)|(a & Ha & Hloc & _)]]; [by apply (IH i)|done|].
  specialize (IH _ _ Ha). inversion Hloc; subst; simpl in *; try done.
  by apply (Hp i).
Qed.

Lemma live_bounded (l : list apc) : sum_list_with live l <= length l.
Proof.
  pose proof (sum_list_with_bound live l 1) as H.
  rewrite Nat.mul_1_l in H. apply H. intros a _. destruct a; simpl; lia.
Qed.

Lemma tomb_accounts ls s :
  ReallyCrash cfg = false -> plain_work do ->
  Tomb.dead t0 = false -> (1 <= Tomb.alive t0)%Z ->
  run VTomb cfg do ls (init t0) = Some s ->
  (Tomb.alive t0 + Z.of_nat (length (attempts s)) < 2 ^ 63)%Z ->
  crashed s = false /\ Tomb.dead (tomb s) = false
  /\ Tomb.alive (tomb s)
     = (Tomb.alive t0 + Z.of_nat (sum_list_with live (attempts s)))%Z.
Proof.
  intros Hrc Hp Hd0 Ha0. revert s.
  induction ls as [|l ls IH] using rev_ind; intros s H Hb.
  { simpl in H. simplify_eq. simpl. split; [done|]. split; [done|lia]. }
  destruct (proj1 (run_snoc VTomb cfg do ls l (init t0) s) H) as (s1 & H1 & E).
  assert (reachable VTomb cfg do t0 s1) as Hr by (by exists ls).
  pose proof (exec_length_le VTomb cfg do _ _ _ E) as Hle.
  destruct (IH s1 H1) as (Hcr & Hde & Hal); [lia|].
  pose proof (live_bounded (attempts s1)) as Hlb.
  pose proof (fun i sc ret => scripts_contained VTomb cfg do t0 s1 i sc ret Hrc Hr)
    as Hsc.
  pose proof (fun i a => closed_attempt_idle VTomb cfg do t0 s1 i a Hr) as Hidle.
  pose proof (fun i a => returned_plain s1 i a Hp Hr) as Hpl.
  unfold exec in E. rewrite Hcr in E.
  destruct l as [why| |from| | | |i]; simpl in E.
  - unfold cancel_step, Tomb.Kill in E.
    destruct (Tomb.kill why (tomb s1)) as [t|] eqn:Hk; [|done].
    destruct (kill_keeps _ _ _ Hk) as [Hka Hkd]. simplify_eq. simpl.
    rewrite Hka, Hkd. done.
  - done.
  - unfold recv_step in E.
    repeat (match type of E with
            | context [match ?x with _ => _ end] => destruct x eqn:?
            end; try discriminate E); simplify_eq; simpl; try done.
    split; [done|]. split; [done|]. rewrite Hal. f_equal. f_equal.
    match goal with
    | Hi : attempts s1 !! ?i = Some ?a |- context [<[?i := ?b]> _] =>
        pose proof (sum_list_with_insert live _ _ _ b Hi) as Hs
    end.
    simpl in Hs. lia.
  - destruct (driver s1); try done. destruct (start_closed s1); by simplify_eq.
  - destruct (driver s1); try done. by simplify_eq.
  - unfold spawn_step, Tomb.Go in E. destruct (driver s1); try done.
    rewrite Hde in E. simplify_eq. simpl in *.
    rewrite length_app in Hb. simpl in Hb.
    rewrite int_wrap_id by (unfold is_int; lia).
    rewrite Hal, sum_list_with_app. simpl. split; [done|]. split; [done|lia].
  - unfold attempt_step in E.
    destruct (attempts s1 !! i) as [a|] eqn:Hi; [|done].
    pose proof (Hpl _ _ Hi) as Hpi.
    pose proof (sum_list_with_lookup live _ _ _ Hi) as Hli.
    assert (forall b, live b = live a ->
              sum_list_with live (<[i := b]> (attempts s1))
              = sum_list_with live (attempts s1)) as Hsame.
    { intros b Hb'. pose proof (sum_list_with_insert live _ _ _ b Hi). lia. }
    destruct a as [|e|[|[[h|] r|r] rest] ret|ret]; simpl in *.
    + destruct (do i); simplify_eq; simpl; rewrite Hsame; done.
    + destruct (start_closed s1); simplify_eq; simpl; rewrite Hsame; done.
    + destruct (run_exit_counts ret (tomb s1) Hpi) as (t & HR & HRa & HRd).
      { unfold is_int. lia. }
      { lia. }
      unfold retire in E. rewrite HR in E. simplify_eq. simpl.
      rewrite HRa, HRd, Hal.
      pose proof (sum_list_with_insert live _ _ _ (ADone ret) Hi) as Hs.
      simpl in Hs. split; [done|]. split; [done|lia].
    + simplify_eq. simpl. rewrite Hsame; done.
    + destruct (start_closed s1) eqn:Hc; [|done].
      pose proof (Hidle _ _ eq_refl Hi) as Hz. simpl in Hz.
      by rewrite rearms_cons_rearm in Hz.
    + by pose proof (Hsc _ _ _ Hi).
    + done.
Qed.

End Steps.
End TombLoop.

Import TombLoop.

(** X11: with the re-raise flag off, a work that returns nil or errors of
    its own, and a tomb that is not dead and tracks at least one other
    goroutine that does not return, the loop over a tomb never panics:
    [ts.Go] never finds the tomb dead, no return of a closure makes [kill]
    panic, and the tomb's count is the goroutines it had plus the attempts
    whose closure has not returned yet (as long as the count stays within
    [int]). *)
Theorem tomb_loop_never_panics
    (cfg : Config) (do : work) (t0 : Tomb.mockTomb)
    (ls : list label) (s : state) :
  ReallyCrash cfg = false ->
  plain_work do ->
  Tomb.dead t0 = false ->
  (1 <= Tomb.alive t0)%Z ->
  run VTomb cfg do ls (init t0) = Some s ->
  (Tomb.alive t0 + Z.of_nat (length (attempts s)) < 2 ^ 63)%Z ->
  crashed s = false
  /\ Tomb.dead (tomb s) = false
  /\ Tomb.Go (tomb s) <> None
  /\ Tomb.alive (tomb s)
     = (Tomb.alive t0 + Z.of_nat (sum_list_with live (attempts s)))%Z.
Proof.
  intros Hrc Hp Hd0 Ha0 H Hb.
  destruct (tomb_accounts cfg do t0 ls s Hrc Hp Hd0 Ha0 H Hb)
    as (Hcr & Hde & Hal).
  split; [done|]. split; [done|]. split; [|done].
  unfold Tomb.Go. by rewrite Hde.
Qed.

Lemma tomb_loop_never_panics_witness :
  exists s,
    run VTomb default_config always_panics
      [LRecv Seeder; LCheck; LSpawn; LAttempt 0; LAttempt 0;
       LRecv (Handler 0); LCheck; LAttempt 0; LSpawn]
      (init busy_tomb) = Some s
    /\ attempts s = [ADone ErrNil; ARun]
    /\ crashed s = false
    /\ Tomb.dead (tomb s) = false
    /\ Tomb.Go (tomb s) <> None
    /\ Tomb.alive (tomb s)
       = (Tomb.alive busy_tomb + Z.of_nat (sum_list_with live (attempts s)))%Z.
Proof.
  eexists. split; [vm_compute; reflexivity|]. split; [reflexivity|].
  apply (tomb_loop_never_panics default_config always_panics busy_tomb
           [LRecv Seeder; LCheck; LSpawn; LAttempt 0; LAttempt 0;
            LRecv (Handler 0); LCheck; LAttempt 0; LSpawn]).
  - reflexivity.
  - intros k e. discriminate.
  - reflexivity.
  - simpl. lia.
  - vm_compute. reflexivity.
  - simpl. lia.
Defined.

(** X12: in the loop over a tomb, when the loop has polled [Dying] and is
    about to call [ts.Go] while the contained attempt's closure, the only
    goroutine the tomb still tracks, returns: that return closes [dead],
    and the [ts.Go] that follows panics in the loop's goroutine, which ends
    the process; no attempt is launched. *)
Theorem lone_attempt_return_makes_Go_panic
    (cfg : Config) (do : work) (s : state) (i : nat) :
  crashed s = false ->
  driver s = DSpawn ->
  attempts s !! i = Some (ADefer [] ErrNil) ->
  Tomb.alive (tomb s) = 1%Z ->
  Tomb.dead (tomb s) = false ->
  exists s1 s2,
    exec VTomb cfg do (LAttempt i) s = Some s1
    /\ crashed s1 = false
    /\ Tomb.dead (tomb s1) = true
    /\ exec VTomb cfg do LSpawn s1 = Some s2
    /\ crashed s2 = true
    /\ length (attempts s2) = length (attempts s).
Proof.
  intros Hcr Hd Hi Hal Hde.
  assert (exists t, Tomb.run_exit ErrNil (tomb s) = Some t
                    /\ Tomb.dead t = true) as (t & Ht & Htd).
  { unfold Tomb.run_exit, Tomb.kill. rewrite Hal. simpl. rewrite Hde.
    destruct (Tomb.reason (tomb s)) eqn:Hr; simpl; eexists; done. }
  exists (set_tomb t (set_attempt i (ADone ErrNil) s)). eexists.
  split; [unfold exec, attempt_step, retire; by rewrite Hcr, Hi, Ht|].
  split; [done|]. split; [done|]. split.
  - unfold exec, spawn_step, Tomb.Go. simpl. by rewrite Hcr, Hd, Htd.
  - split; [done|]. simpl. by rewrite length_insert.
Qed.

Lemma lone_attempt_return_makes_Go_panic_witness :
  exists s s1 s2,
    run VTomb default_config always_panics
      [LRecv Seeder; LCheck; LSpawn; LAttempt 0; LAttempt 0;
       LRecv (Handler 0); LCheck]
      (init Tomb.fresh) = Some s
    /\ exec VTomb default_config always_panics (LAttempt 0) s = Some s1
    /\ crashed s1 = false
    /\ Tomb.dead (tomb s1) = true
    /\ exec VTomb default_config always_panics LSpawn s1 = Some s2
    /\ crashed s2 = true
    /\ length (attempts s2) = length (attempts s).
Proof.
  eexists. 
  destruct (lone_attempt_return_makes_Go_panic default_config always_panics
              {| stop := false; start_closed := false; seeder := false;
                 driver := DSpawn; attempts := [ADefer [] ErrNil];
                 tomb := {| Tomb.alive := 1; Tomb.dying := false;
                            Tomb.dead := false;
                            Tomb.reason := ErrStillAlive |};
                 crashed := false;
                 trace := [(0, Global LogPanic, VString "panicked");
                           (0, RearmStart, VString "panicked")] |} 0)
    as (s1 & s2 & H); try reflexivity.
  exists s1, s2. split; [vm_compute; reflexivity|]. exact H.
Defined.

(** ** What can make a loop hang *)

Module Stuck.
Import Crash Loop LoopView CrashFacts LoopFacts LoopMore.

Section Steps.
Variables (v : variant) (cfg : Config) (do : work).

Lemma token_fate l s s' :
  exec v cfg do l s = Some s' ->
  tokens s' = tokens s
  \/ start_closed s' = true
  \/ driver s' = DDone
  \/ exists k, attempts s !! k = Some ARun /\ do k = Panics VNil.
Proof.
  intros H.
  assert (driver s' = DDone \/ driver s' <> DDone) as [|Hnd];
    [destruct (driver s'); auto; right; discriminate|auto|].
  destruct (start_closed s') eqn:Hc'; [auto|].
  exec_inv H; simpl in *; try done; try congruence;
    try match goal with
      | Hi : attempts _ !! ?i = Some ARun, Hp : do ?i = Panics ?r |- _ =>
          destruct r; [by right; right; right; eauto| | |]
      end;
    left; tok; try lia;
    try (destruct v; simpl; lia);
    try (destruct (signaled _ _); simpl in *; try done; lia).
Qed.

Lemma token_or_cause t0 s :
  reachable v cfg do t0 s ->
  tokens s = 1
  \/ start_closed s = true
  \/ driver s = DDone
  \/ exists k, k < length (attempts s) /\ do k = Panics VNil.
Proof.
  revert s.
  apply (reachable_ind v cfg do
           (fun s => tokens s = 1 \/ start_closed s = true \/ driver s = DDone
                     \/ exists k, k < length (attempts s) /\ do k = Panics VNil)).
  { by left. }
  intros l s s' IH H.
  pose proof (exec_length_le v cfg do _ _ _ H) as Hle.
  destruct IH as [Ht|[Hc|[Hd|(k & Hk & Hdo)]]].
  - destruct (token_fate _ _ _ H) as [Heq|[?|[?|(k & Hk & Hdo)]]]; auto.
    + left. congruence.
    + right; right; right. exists k. split; [|done].
      apply lookup_lt_Some in Hk. lia.
  - right; left. by apply (exec_closed_mono v cfg do l s).
  - right; right; left.
    by destruct (exec_driver_done v cfg do _ _ _ H Hd) as [[? _]|[? _]].
  - right; right; right. exists k. split; [lia|done].
Qed.

Ltac fire :=
  unfold exec, recv_step, spawn_step, attempt_step;
  repeat match goal with
    | H : ?x = _ |- context [?x] => rewrite H
    end;
  simpl; eauto.

Lemma enabled_or_cause t0 s :
  reachable v cfg do t0 s -> crashed s = false -> driver s <> DDone ->
  (exists l s', is_cancel l = false /\ exec v cfg do l s = Some s')
  \/ (exists i, attempts s !! i = Some ARun /\ do i = Blocks)
  \/ (exists k, k < length (attempts s) /\ do k = Panics VNil).
Proof.
  intros Hr Hcr Hd.
  destruct (token_or_cause t0 s Hr) as [Ht|[Hc|[?|?]]]; [| |done|auto].
  - unfold tokens in Ht.
    assert (start_closed s = false) as Hc.
    { destruct (start_closed s) eqn:Hc; [|done].
      pose proof (closed_no_token v cfg do t0 s Hr Hc) as Hz.
      unfold tokens in Hz. lia. }
    destruct (driver s) eqn:Hdr; simpl in Ht; [| | |done].
    + destruct (seeder s) eqn:Hse.
      { left. exists (LRecv Seeder). eexists. split; [done|]. fire. }
      destruct (sum_list_with_pos held (attempts s)) as (i & a & Hi & Ha);
        [lia|].
      destruct a as [|e|[|[[h|] r|r] rest] ret|ret]; simpl in *;
        unfold rearms in *; simpl in *; try lia.
      * destruct (do i) as [e|r|] eqn:Hdo.
        -- left. exists (LAttempt i). eexists. split; [done|]. fire.
        -- left. exists (LAttempt i). eexists. split; [done|]. fire.
        -- right; left. eauto.
      * left. exists (LAttempt i). eexists. split; [done|]. fire.
      * left. exists (LAttempt i). eexists. split; [done|]. fire.
      * left. exists (LRecv (Handler i)). eexists. split; [done|]. fire.
      * left. exists (LAttempt i). eexists. split; [done|]. fire.
    + left. exists LCheck. eexists. split; [done|]. fire.
    + left. exists LSpawn.
      assert (exists s', exec v cfg do LSpawn s = Some s') as (s' & H).
      { fire. destruct v; eauto. destruct (Tomb.Go (tomb s)); eauto. }
      eauto.
  - left. exists LClosed. eexists. split; [done|].
    destruct (closed_driver_idle v cfg do t0 s Hr Hc) as [Hdr|Hdr]; [|done].
    fire.
Qed.

End Steps.
End Stuck.

Import Stuck.

(** X13: a loop whose call has not returned, in a process that has not
    crashed, can always make a move of its own, unless an attempt is inside
    a call of the work that never ends, or some attempt's call panicked
    with the nil value: nothing else makes a blocking call hang. *)
Theorem hangs_only_on_endless_call_or_nil_panic
    (v : variant) (cfg : Config) (do : work) (t0 : Tomb.mockTomb)
    (s : state) :
  reachable v cfg do t0 s ->
  crashed s = false ->
  driver s <> DDone ->
  (forall l, is_cancel l = false -> exec v cfg do l s = None) ->
  (exists i, attempts s !! i = Some ARun /\ do i = Blocks)
  \/ (exists k, k < length (attempts s) /\ do k = Panics VNil).
Proof.
  intros Hr Hcr Hd Hstuck.
  destruct (enabled_or_cause v cfg do t0 s Hr Hcr Hd)
    as [(l & s' & Hl & H)|Hcause]; [|done].
  rewrite (Hstuck l Hl) in H. done.
Qed.

Lemma hangs_only_on_endless_call_or_nil_panic_witness :
  exists s,
    run VContext default_config hangs
      [LRecv Seeder; LCheck; LSpawn; LCancel ErrNil] (init Tomb.fresh) = Some s
    /\ ((exists i, attempts s !! i = Some ARun /\ hangs i = Blocks)
        \/ (exists k, k < length (attempts s) /\ hangs k = Panics VNil)).
Proof.
  eexists. split; [vm_compute; reflexivity|].
  apply (hangs_only_on_endless_call_or_nil_panic
           VContext default_config hangs Tomb.fresh).
  - exists [LRecv Seeder; LCheck; LSpawn; LCancel ErrNil].
    vm_compute. reflexivity.
  - reflexivity.
  - discriminate.
  - intros [why| |[|i]| | | |[|i]] Hl; try done; by destruct i.
Defined.
